(** * kitty/utils.py: single-instance coordination and shell-environment discovery

    A shallow embedding of the two facilities of [kitty/utils.py] that carry
    the module's inter-process reasoning:

    - [SingleInstance.__call__], [single_instance_unix], [unix_socket_paths]
      and [unix_socket_directories];
    - [read_shell_environment].

    Python text that names files and sockets is a [string]; text decoded
    from the pseudo-terminal is a list of code points, because
    [str.splitlines] looks at code points above 255.  Calls into the
    operating system are the nodes of a small program tree, interpreted
    either by an arbitrary handler or by a model of the kernel tables the
    calls touch. *)

From Stdlib Require Import ZArith NArith Ascii String List Lia.
From stdpp Require Import base decidable option list gmap strings pretty fin_maps.

Local Open Scope string_scope.

(** ** Python string helpers *)

Module Py.

(** [s.startswith('/')] *)
Definition starts_with_sep (s : string) : bool :=
  match s with
  | String c _ => Ascii.eqb c "/"
  | EmptyString => false
  end.

(** [s.endswith('/')] *)
Fixpoint ends_with_sep (s : string) : bool :=
  match s with
  | EmptyString => false
  | String c EmptyString => Ascii.eqb c "/"
  | String _ s' => ends_with_sep s'
  end.

(** [os.path.join(a, b)] of posixpath, two arguments. *)
Definition path_join (a b : string) : string :=
  if starts_with_sep b then b
  else if (String.eqb a "" || ends_with_sep a)%bool then a ++ b
  else a ++ "/" ++ b.

(** The head of [s.rpartition(sep)] when [sep] occurs in [s]. *)
Fixpoint rpartition_head (sep : ascii) (s : string) : option string :=
  match s with
  | EmptyString => None
  | String c s' =>
      match rpartition_head sep s' with
      | Some h => Some (String c h)
      | None => if Ascii.eqb c sep then Some EmptyString else None
      end
  end.

(** [s.rpartition(sep)[0]]: the empty string when [sep] does not occur. *)
Definition rpartition0 (sep : ascii) (s : string) : string :=
  default EmptyString (rpartition_head sep s).

(** [str(n)] for a non-negative integer. *)
Definition str_of_N (n : N) : string := pretty n.

End Py.

(** ** What a process reads from its environment and from [constants] *)

Record penv := {
  appname : string;          (* kitty.constants.appname *)
  euid : N;                  (* os.geteuid() *)
  home : string;             (* os.path.expanduser('~') *)
  tempdir : string;          (* tempfile.gettempdir() *)
  is_macos : bool;           (* kitty.constants.is_macos *)
  user_cache_dir : string    (* fast_data_types.user_cache_dir() *)
}.

(** The first lines of [SingleInstance.__call__]:
    [name = f'{appname}-ipc-{os.geteuid()}'], then
    [if group_id: name += f'-{group_id}']. *)
Definition instance_name (E : penv) (group_id : option string) : string :=
  let name := appname E ++ "-ipc-" ++ Py.str_of_N (euid E) in
  match group_id with
  | None => name
  | Some g => if String.eqb g "" then name else name ++ "-" ++ g
  end.

(** [addr = '\0' + name] *)
Definition abstract_addr (name : string) : string := String "000" name.

(** The candidate list of [unix_socket_directories], before the
    [os.access] filter. *)
Definition socket_dir_candidates (E : penv) : list string :=
  if is_macos E then [user_cache_dir E; "/Library/Caches"]
  else [tempdir E; home E].

(** One element of [unix_socket_paths(name, ext)], for the directory [loc]. *)
Definition unix_socket_path (E : penv) (name ext loc : string) : string :=
  let filename := (if String.eqb loc (home E) then "." else "") ++ name ++ ext in
  Py.path_join loc filename.

(** [socket_path = path.rpartition('.')[0] + '.sock'] *)
Definition socket_path_of (path : string) : string :=
  Py.rpartition0 "." path ++ ".sock".

(** ** Calls into the operating system *)

Inductive errno :=
  | EPERM | ENOENT | EIO | ENXIO | EBADF | EAGAIN | ENOMEM | EACCES | EEXIST
  | ENOTDIR | EISDIR | EINVAL | EMFILE | ENOSPC | EROFS | ENAMETOOLONG
  | EADDRINUSE | EADDRNOTAVAIL | ECONNREFUSED.

#[global] Instance errno_eq_dec : EqDecision errno.
Proof. solve_decision. Defined.

Definition sock := nat.   (* a socket object *)
Definition fd := nat.     (* a file descriptor returned by os.open *)
Definition pid := nat.

Inductive open_flag := O_CREAT | O_WRONLY | O_TRUNC | O_CLOEXEC.
Inductive access_mode := W_OK | R_OK | X_OK.

#[global] Instance open_flag_eq_dec : EqDecision open_flag.
Proof. solve_decision. Defined.

(** The calls the two functions make, indexed by what they return.
    [fcntl_lockf] is always [fcntl.lockf(fd, LOCK_EX | LOCK_NB)]. *)
Inductive syscall : Type -> Type :=
  | socket_socket : syscall sock                                  (* socket.socket(family=AF_UNIX) *)
  | sock_bind (s : sock) (addr : string) : syscall unit            (* s.bind(addr) *)
  | sock_listen (s : sock) : syscall unit                          (* s.listen() *)
  | sock_connect (s : sock) (addr : string) : syscall unit         (* s.connect(addr) *)
  | sock_set_inheritable (s : sock) (b : bool) : syscall unit      (* s.set_inheritable(b) *)
  | os_access (path : string) (mode : list access_mode) : syscall bool
  | os_open (path : string) (flags : list open_flag) : syscall fd
  | fcntl_lockf (f : fd) : syscall unit
  | os_unlink (path : string) : syscall unit.

(** A call returns a value or raises [OSError] with an errno. *)
Inductive result (T : Type) : Type :=
  | Ok (v : T)
  | OSError (e : errno).
Arguments Ok {T} v.
Arguments OSError {T} e.

(** [atexit.register(remove_socket_file, s, path)] *)
Record cleanup := RemoveSocketFile { cl_sock : sock; cl_path : option string }.

(** Programs: a tree of calls, each continuation seeing the value or the
    error of its call, with the two process-local effects of the module,
    the assignment to [single_instance.socket] and the [atexit] registry. *)
Inductive prog (A : Type) : Type :=
  | Ret (a : A)
  | Raise (e : errno)
  | Sys {T : Type} (c : syscall T) (k : result T -> prog A)
  | SetSocket (s : sock) (k : prog A)
  | AtExit (h : cleanup) (k : prog A).
Arguments Ret {A} a.
Arguments Raise {A} e.
Arguments Sys {A T} c k.
Arguments SetSocket {A} s k.
Arguments AtExit {A} h k.

Fixpoint bind {A B : Type} (m : prog A) (f : A -> prog B) : prog B :=
  match m with
  | Ret a => f a
  | Raise e => Raise e
  | Sys c k => Sys c (fun r => bind (k r) f)
  | SetSocket s k => SetSocket s (bind k f)
  | AtExit h k => AtExit h (bind k f)
  end.

(** A call outside any [try]: an [OSError] propagates. *)
Definition call {T : Type} (c : syscall T) : prog T :=
  Sys c (fun r => match r with Ok v => Ret v | OSError e => Raise e end).

#[global] Instance prog_bind : MBind prog := fun A B f m => bind m f.
#[global] Instance prog_ret : MRet prog := @Ret.

(** [try: c] with the [except OSError] clauses in the continuation. *)
Notation "'try_' r ← c ; k" := (Sys c (fun r => k))
  (at level 20, r name, c at level 100, k at level 200, only parsing).

(** *** The generators

    [unix_socket_directories] yields lazily: [os.access] is called on a
    candidate only when the consumer asks for the next element.  A
    generator is its list of remaining candidates; [next] returns the next
    accessible one and the rest. *)
Fixpoint unix_socket_directories_next (cands : list string)
  : prog (option (string * list string)) :=
  match cands with
  | [] => Ret None
  | loc :: rest =>
      ok ← call (os_access loc [W_OK; R_OK; X_OK]);
      if (ok : bool) then Ret (Some (loc, rest))
      else unix_socket_directories_next rest
  end.

Definition unix_socket_paths_next (E : penv) (name ext : string) (cands : list string)
  : prog (option (string * list string)) :=
  o ← unix_socket_directories_next cands;
  match o with
  | None => Ret None
  | Some (loc, rest) => Ret (Some (unix_socket_path E name ext loc, rest))
  end.

(** *** [single_instance_unix] *)

(** The [# Client] branch. *)
Definition unix_client (socket_path : string) : prog bool :=
  s ← call socket_socket;
  call (sock_connect s socket_path);;
  SetSocket s (Ret false).

(** After the second [s = socket.socket(...)], once a bind has succeeded. *)
Definition unix_serve (s : sock) (socket_path : string) : prog bool :=
  SetSocket s
    (AtExit (RemoveSocketFile s (Some socket_path))
       (call (sock_listen s);;
        call (sock_set_inheritable s false);;
        Ret true)).

(** The lock is held: bind, replacing a stale socket file. *)
Definition unix_server (socket_path : string) : prog bool :=
  s ← call socket_socket;
  try_ r ← sock_bind s socket_path;
  match r with
  | Ok _ => unix_serve s socket_path
  | OSError err =>
      if bool_decide (err ∈ [EADDRINUSE; EEXIST]) then
        call (os_unlink socket_path);;
        call (sock_bind s socket_path);;
        unix_serve s socket_path
      else Raise err
  end.

(** The body of the [for] loop; every branch returns or raises. *)
Definition single_instance_unix_body (path : string) : prog bool :=
  let socket_path := socket_path_of path in
  f ← call (os_open path [O_CREAT; O_WRONLY; O_TRUNC; O_CLOEXEC]);
  try_ r ← fcntl_lockf f;
  match r with
  | OSError err =>
      if bool_decide (err ∈ [EAGAIN; EACCES]) then unix_client socket_path
      else Raise err
  | Ok _ => unix_server socket_path
  end.

(** The [for] loop over the generator whose remaining candidates are
    [cands]: the first path it yields is used, and [return False] follows
    the loop when it yields none. *)
Definition single_instance_unix_from (E : penv) (name : string) (cands : list string)
  : prog bool :=
  o ← unix_socket_paths_next E name ".lock" cands;
  match o with
  | Some (path, _) => single_instance_unix_body path
  | None => Ret false
  end.

Definition single_instance_unix (E : penv) (name : string) : prog bool :=
  single_instance_unix_from E name (socket_dir_candidates E).

(** *** [SingleInstance.__call__]; [True] is the Server role, [False] the
    Client role. *)

Definition abstract_serve (s : sock) : prog bool :=
  call (sock_listen s);;
  SetSocket s
    (call (sock_set_inheritable s false);;
     AtExit (RemoveSocketFile s None) (Ret true)).

Definition abstract_client (s : sock) (addr : string) : prog bool :=
  call (sock_connect s addr);;
  SetSocket s (Ret false).

Definition single_instance (E : penv) (group_id : option string) : prog bool :=
  let name := instance_name E group_id in
  s ← call socket_socket;
  let addr := abstract_addr name in
  try_ r ← sock_bind s addr;
  match r with
  | OSError err =>
      if bool_decide (err = ENOENT) then single_instance_unix E name
      else if bool_decide (err = EADDRINUSE) then abstract_client s addr
      else Raise err
  | Ok _ => abstract_serve s
  end.

(** ** Running a program *)

(** How the world answers a call: any function of the call and a state. *)
Definition handler (S : Type) : Type := forall T : Type, syscall T -> S -> result T * S.

Inductive event : Type :=
  | Ev {T : Type} (c : syscall T) (r : result T).

(** The module-level state of one process: the class attribute
    [SingleInstance.socket] and the registered exit handlers. *)
Record pystate := PyState {
  si_socket : option sock;
  atexit_registry : list cleanup
}.

Definition py_init : pystate := PyState None [].

(** A process: the rest of its program, its module state, the calls made. *)
Record proc (A : Type) := Proc {
  p_code : prog A;
  p_py : pystate;
  p_trace : list event
}.
Arguments Proc {A} p_code p_py p_trace.
Arguments p_code {A} p.
Arguments p_py {A} p.
Arguments p_trace {A} p.

Definition proc_init {A : Type} (code : prog A) : proc A := Proc code py_init [].

(** One command of a process. A finished process does not move. *)
Definition step_proc {S A : Type} (h : handler S) (σ : S) (p : proc A) : S * proc A :=
  match p_code p with
  | Ret _ | Raise _ => (σ, p)
  | Sys c k =>
      let '(r, σ') := h _ c σ in
      (σ', Proc (k r) (p_py p) (p_trace p ++ [Ev c r]))
  | SetSocket s k =>
      (σ, Proc k (PyState (Some s) (atexit_registry (p_py p))) (p_trace p))
  | AtExit f k =>
      (σ, Proc k (PyState (si_socket (p_py p)) (atexit_registry (p_py p) ++ [f])) (p_trace p))
  end.

(** A whole call, from the program [code] to its return or its exception. *)
Fixpoint exec_from {S A : Type} (h : handler S) (code : prog A)
    (σ : S) (py : pystate) (tr : list event) : S * proc A :=
  match code with
  | Ret _ | Raise _ => (σ, Proc code py tr)
  | Sys c k =>
      let '(r, σ') := h _ c σ in
      exec_from h (k r) σ' py (tr ++ [Ev c r])
  | SetSocket s k =>
      exec_from h k σ (PyState (Some s) (atexit_registry py)) tr
  | AtExit f k =>
      exec_from h k σ (PyState (si_socket py) (atexit_registry py ++ [f])) tr
  end.

Definition exec {S A : Type} (h : handler S) (code : prog A) (σ : S) : S * proc A :=
  exec_from h code σ py_init [].

Inductive outcome (A : Type) : Type :=
  | Returned (a : A)
  | Raised (e : errno)
  | Running.
Arguments Returned {A} a.
Arguments Raised {A} e.
Arguments Running {A}.

Definition outcome_of {A : Type} (p : proc A) : outcome A :=
  match p_code p with
  | Ret a => Returned a
  | Raise e => Raised e
  | _ => Running
  end.

(** ** A model of the kernel tables the calls touch *)

Inductive node :=
  | Regular (content : string)   (* a regular file and its bytes *)
  | SocketFile (s : sock).       (* the file a filesystem bind created *)

Record sockinfo := SockInfo {
  so_owner : pid;
  so_bound : option string;
  so_listening : bool;
  so_peer : option string
}.

Record kernel := Kernel {
  k_abstract : bool;                 (* the platform has the abstract namespace *)
  k_access : gset string;            (* directories with read, write and search access *)
  k_files : gmap string node;        (* the filesystem, by path *)
  k_abs : gmap string sock;          (* the abstract namespace: address to bound socket *)
  k_socks : gmap sock sockinfo;      (* live sockets *)
  k_fds : gmap fd (pid * string);    (* open descriptors: owner and path *)
  k_locks : gmap string pid          (* advisory locks: path to holder *)
}.

Definition set_files (f : gmap string node -> gmap string node) (k : kernel) : kernel :=
  Kernel (k_abstract k) (k_access k) (f (k_files k)) (k_abs k) (k_socks k) (k_fds k) (k_locks k).
Definition set_abs (f : gmap string sock -> gmap string sock) (k : kernel) : kernel :=
  Kernel (k_abstract k) (k_access k) (k_files k) (f (k_abs k)) (k_socks k) (k_fds k) (k_locks k).
Definition set_socks (f : gmap sock sockinfo -> gmap sock sockinfo) (k : kernel) : kernel :=
  Kernel (k_abstract k) (k_access k) (k_files k) (k_abs k) (f (k_socks k)) (k_fds k) (k_locks k).
Definition set_fds (f : gmap fd (pid * string) -> gmap fd (pid * string)) (k : kernel) : kernel :=
  Kernel (k_abstract k) (k_access k) (k_files k) (k_abs k) (k_socks k) (f (k_fds k)) (k_locks k).
Definition set_locks (f : gmap string pid -> gmap string pid) (k : kernel) : kernel :=
  Kernel (k_abstract k) (k_access k) (k_files k) (k_abs k) (k_socks k) (k_fds k) (f (k_locks k)).

(** An address that starts with a NUL byte names the abstract namespace. *)
Definition is_abstract (addr : string) : bool :=
  match addr with
  | String c _ => Ascii.eqb c "000"
  | EmptyString => false
  end.

(** The socket [s] when it is live and belongs to process [p]. *)
Definition own_sock (p : pid) (k : kernel) (s : sock) : option sockinfo :=
  match k_socks k !! s with
  | Some i => if decide (so_owner i = p) then Some i else None
  | None => None
  end.

(** Is a live socket listening? *)
Definition listening (k : kernel) (s : sock) : bool :=
  match k_socks k !! s with
  | Some i => so_listening i
  | None => false
  end.

Definition k_socket (p : pid) (k : kernel) : result sock * kernel :=
  let s := fresh (dom (k_socks k)) in
  (Ok s, set_socks (insert s (SockInfo p None false None)) k).

Definition k_bind (p : pid) (s : sock) (addr : string) (k : kernel) : result unit * kernel :=
  match own_sock p k s with
  | None => (OSError EBADF, k)
  | Some i =>
      match so_bound i with
      | Some _ => (OSError EINVAL, k)
      | None =>
          let bound := SockInfo (so_owner i) (Some addr) (so_listening i) (so_peer i) in
          if is_abstract addr then
            if k_abstract k then
              match k_abs k !! addr with
              | Some _ => (OSError EADDRINUSE, k)
              | None => (Ok (), set_socks (insert s bound) (set_abs (insert addr s) k))
              end
            else (OSError ENOENT, k)
          else
            match k_files k !! addr with
            | Some _ => (OSError EADDRINUSE, k)
            | None => (Ok (), set_socks (insert s bound) (set_files (insert addr (SocketFile s)) k))
            end
      end
  end.

Definition k_listen (p : pid) (s : sock) (k : kernel) : result unit * kernel :=
  match own_sock p k s with
  | None => (OSError EBADF, k)
  | Some i =>
      match so_bound i with
      | None => (OSError EINVAL, k)
      | Some _ =>
          (Ok (), set_socks (insert s (SockInfo (so_owner i) (so_bound i) true (so_peer i))) k)
      end
  end.

(** The socket that accepts connections at [addr], if one does. *)
Definition listener_at (k : kernel) (addr : string) : result sock :=
  if is_abstract addr then
    if k_abstract k then
      match k_abs k !! addr with
      | Some t => if listening k t then Ok t else OSError ECONNREFUSED
      | None => OSError ECONNREFUSED
      end
    else OSError ENOENT
  else
    match k_files k !! addr with
    | None => OSError ENOENT
    | Some (Regular _) => OSError ECONNREFUSED
    | Some (SocketFile t) => if listening k t then Ok t else OSError ECONNREFUSED
    end.

Definition k_connect (p : pid) (s : sock) (addr : string) (k : kernel) : result unit * kernel :=
  match own_sock p k s with
  | None => (OSError EBADF, k)
  | Some i =>
      match listener_at k addr with
      | OSError e => (OSError e, k)
      | Ok _ =>
          (Ok (), set_socks (insert s (SockInfo (so_owner i) (so_bound i) (so_listening i) (Some addr))) k)
      end
  end.

Definition k_set_inheritable (p : pid) (s : sock) (k : kernel) : result unit * kernel :=
  match own_sock p k s with
  | None => (OSError EBADF, k)
  | Some _ => (Ok (), k)
  end.

Definition k_access_call (path : string) (k : kernel) : result bool * kernel :=
  (Ok (bool_decide (path ∈ k_access k)), k).

Definition k_open (p : pid) (path : string) (flags : list open_flag) (k : kernel)
  : result fd * kernel :=
  let f := fresh (dom (k_fds k)) in
  match k_files k !! path with
  | Some (SocketFile _) => (OSError ENXIO, k)
  | Some (Regular content) =>
      let content' := if bool_decide (O_TRUNC ∈ flags) then EmptyString else content in
      (Ok f, set_fds (insert f (p, path)) (set_files (insert path (Regular content')) k))
  | None =>
      if bool_decide (O_CREAT ∈ flags) then
        (Ok f, set_fds (insert f (p, path)) (set_files (insert path (Regular EmptyString)) k))
      else (OSError ENOENT, k)
  end.

(** [lockf(fd, LOCK_EX | LOCK_NB)]: the lock is taken when free or already
    held by the caller; [EAGAIN] when another process holds it. *)
Definition k_lockf (p : pid) (f : fd) (k : kernel) : result unit * kernel :=
  match k_fds k !! f with
  | None => (OSError EBADF, k)
  | Some (q, path) =>
      if decide (q = p) then
        match k_locks k !! path with
        | None => (Ok (), set_locks (insert path p) k)
        | Some holder =>
            if decide (holder = p) then (Ok (), k) else (OSError EAGAIN, k)
        end
      else (OSError EBADF, k)
  end.

Definition k_unlink (path : string) (k : kernel) : result unit * kernel :=
  match k_files k !! path with
  | None => (OSError ENOENT, k)
  | Some _ => (Ok (), set_files (delete path) k)
  end.

(** The kernel as a handler for the calls of process [p]. *)
Definition kernel_handle (p : pid) : handler kernel :=
  fun T c =>
    match c in syscall T return kernel -> result T * kernel with
    | socket_socket => k_socket p
    | sock_bind s addr => k_bind p s addr
    | sock_listen s => k_listen p s
    | sock_connect s addr => k_connect p s addr
    | sock_set_inheritable s _ => k_set_inheritable p s
    | os_access path _ => k_access_call path
    | os_open path flags => k_open p path flags
    | fcntl_lockf f => k_lockf p f
    | os_unlink path => k_unlink path
    end.

(** What the generator yields first: the first candidate with read, write
    and search access, and the candidates behind it. *)
Fixpoint next_accessible (k : kernel) (cands : list string)
  : option (string * list string) :=
  match cands with
  | [] => None
  | loc :: rest =>
      if bool_decide (loc ∈ k_access k) then Some (loc, rest)
      else next_accessible k rest
  end.

Definition first_accessible (k : kernel) (cands : list string) : option string :=
  fst <$> next_accessible k cands.

(** The [os.access] calls the generator makes until it yields. *)
Fixpoint access_events (k : kernel) (cands : list string) : list event :=
  match cands with
  | [] => []
  | loc :: rest =>
      Ev (os_access loc [W_OK; R_OK; X_OK]) (Ok (bool_decide (loc ∈ k_access k)))
      :: (if bool_decide (loc ∈ k_access k) then [] else access_events k rest)
  end.

(** ** Two processes over one kernel *)

Record system := System {
  s_kernel : kernel;
  s_first : proc bool;     (* process 0 *)
  s_second : proc bool     (* process 1 *)
}.

(** The scheduler picks a process; it runs one command. *)
Definition sched_step (sys : system) (who : bool) : system :=
  if who then
    let '(k, p) := step_proc (kernel_handle 1) (s_kernel sys) (s_second sys) in
    System k (s_first sys) p
  else
    let '(k, p) := step_proc (kernel_handle 0) (s_kernel sys) (s_first sys) in
    System k p (s_second sys).

Definition run_schedule (sched : list bool) (sys : system) : system :=
  foldl sched_step sys sched.

(** Both processes call [single_instance(group_id)] in the environment [E]. *)
Definition race (E : penv) (group_id : option string) (k : kernel) : system :=
  System k (proc_init (single_instance E group_id)) (proc_init (single_instance E group_id)).

(** ** [read_shell_environment] *)

Module ShellEnv.

Local Open Scope N_scope.

(** Decoded text: a list of Unicode code points. *)
Definition ustr := list N.

(** The code points of an ASCII literal. *)
Definition lit (s : string) : ustr := map N_of_ascii (list_ascii_of_string s).

(** [raw.decode('utf-8', 'replace')]: every maximal ill-formed run becomes
    one U+FFFD and decoding resumes behind it. *)
Definition is_continuation (b : N) : bool := (0x80 <=? b) && (b <? 0xC0).

Definition second_ok3 (b0 b1 : N) : bool :=
  is_continuation b1 && negb (if b1 <? 0xA0 then b0 =? 0xE0 else b0 =? 0xED).

Definition second_ok4 (b0 b1 : N) : bool :=
  is_continuation b1 && negb (if b1 <? 0x90 then b0 =? 0xF0 else b0 =? 0xF4).

Definition low6 (b : N) : N := N.land b 0x3F.

Fixpoint utf8_replace (bs : list N) : ustr :=
  match bs with
  | [] => []
  | b0 :: r0 =>
      if b0 <? 0x80 then b0 :: utf8_replace r0
      else if (b0 <? 0xC2) || (0xF4 <? b0) then 0xFFFD :: utf8_replace r0
      else if b0 <? 0xE0 then
        match r0 with
        | [] => [0xFFFD]
        | b1 :: r1 =>
            if is_continuation b1
            then N.lor (N.shiftl (N.land b0 0x1F) 6) (low6 b1) :: utf8_replace r1
            else 0xFFFD :: utf8_replace r0
        end
      else if b0 <? 0xF0 then
        match r0 with
        | [] => [0xFFFD]
        | b1 :: r1 =>
            if second_ok3 b0 b1 then
              match r1 with
              | [] => [0xFFFD]
              | b2 :: r2 =>
                  if is_continuation b2
                  then N.lor (N.shiftl (N.land b0 0x0F) 12)
                         (N.lor (N.shiftl (low6 b1) 6) (low6 b2)) :: utf8_replace r2
                  else 0xFFFD :: utf8_replace r1
              end
            else 0xFFFD :: utf8_replace r0
        end
      else
        match r0 with
        | [] => [0xFFFD]
        | b1 :: r1 =>
            if second_ok4 b0 b1 then
              match r1 with
              | [] => [0xFFFD]
              | b2 :: r2 =>
                  if is_continuation b2 then
                    match r2 with
                    | [] => [0xFFFD]
                    | b3 :: r3 =>
                        if is_continuation b3
                        then N.lor (N.shiftl (N.land b0 0x07) 18)
                               (N.lor (N.shiftl (low6 b1) 12)
                                  (N.lor (N.shiftl (low6 b2) 6) (low6 b3))) :: utf8_replace r3
                        else 0xFFFD :: utf8_replace r2
                    end
                  else 0xFFFD :: utf8_replace r1
              end
            else 0xFFFD :: utf8_replace r0
        end
  end.

Definition decode (raw : string) : ustr :=
  utf8_replace (map N_of_ascii (list_ascii_of_string raw)).

(** The line boundaries of [str.splitlines]. *)
Definition is_linebreak (c : N) : bool :=
  bool_decide (c ∈ [0x0A; 0x0B; 0x0C; 0x0D; 0x1C; 0x1D; 0x1E; 0x85; 0x2028; 0x2029]).

(** [str.splitlines()] with [cur] the current line, reversed; CR LF is one
    boundary, and no empty line follows a final boundary. *)
Fixpoint splitlines_from (cur : ustr) (s : ustr) : list ustr :=
  match s with
  | [] => match cur with [] => [] | _ => [rev cur] end
  | c :: rest =>
      if is_linebreak c then
        rev cur ::
          match rest with
          | c' :: rest' =>
              if (c =? 0x0D) && (c' =? 0x0A) then splitlines_from [] rest'
              else splitlines_from [] rest
          | [] => []
          end
      else splitlines_from (c :: cur) rest
  end.

Definition splitlines (s : ustr) : list ustr := splitlines_from [] s.

(** [line.partition('=')[::2]] *)
Fixpoint partition_eq (line : ustr) : ustr * ustr :=
  match line with
  | [] => ([], [])
  | c :: rest =>
      if c =? 0x3D then ([], rest)
      else let '(k, v) := partition_eq rest in (c :: k, v)
  end.

Definition truthy (s : ustr) : bool := match s with [] => false | _ => true end.

(** One iteration of [for line in draw.splitlines()]. *)
Definition add_line (ans : gmap ustr ustr) (line : ustr) : gmap ustr ustr :=
  let '(k, v) := partition_eq line in
  if truthy k && truthy v then <[k := v]> ans else ans.

Definition parse_env (ans : gmap ustr ustr) (draw : ustr) : gmap ustr ustr :=
  foldl add_line ans (splitlines draw).

(** What the child and the pseudo-terminal do, as the function sees it. *)
Inductive read_result :=
  | ReadRaises                 (* stdout.read() raises *)
  | ReadNone                   (* no data ready on the non-blocking master *)
  | ReadBytes (bs : string).

Inductive popen_result :=
  | Started
  | FileNotFound               (* FileNotFoundError *)
  | PopenRaises (e : errno).   (* any other exception of Popen *)

Record shell_script := ShellScript {
  sh_popen : popen_result;
  (* one entry per iteration of the [while] loop that starts before the
     1.5 s deadline: what [p.wait(0.01)] gives ([None] for TimeoutExpired)
     and what [stdout.read()] gives *)
  sh_polls : list (option Z * read_result);
  (* the reads of the final [while True] loop *)
  sh_drain : list read_result
}.

(** [with suppress(Exception): raw += stdout.read()] *)
Definition append_read (raw : string) (r : read_result) : string :=
  match r with
  | ReadBytes bs => (raw ++ bs)%string
  | ReadNone | ReadRaises => raw
  end.

(** The bounded [while] loop: the return code ([None] if the deadline
    passed first) and the bytes gathered. *)
Fixpoint poll_loop (polls : list (option Z * read_result)) (raw : string) : option Z * string :=
  match polls with
  | [] => (None, raw)
  | (ret, rd) :: rest =>
      let raw := append_read raw rd in
      match ret with
      | Some _ => (ret, raw)
      | None => poll_loop rest raw
      end
  end.

(** The final [while True] loop; it stops at an exception, at [None] and
    at the empty bytes, which is also what the end of the script gives. *)
Fixpoint drain_loop (reads : list read_result) (raw : string) : string :=
  match reads with
  | ReadBytes (String c bs) :: rest => drain_loop rest (raw ++ String c bs)%string
  | _ => raw
  end.

Definition loc := nat.   (* the identity of a dict object *)

Record state := State {
  rse_ans : option loc;                  (* the attribute read_shell_environment.ans *)
  heap : gmap loc (gmap ustr ustr);      (* the dict objects *)
  errlog : list string;                  (* what log_error was given *)
  popen_calls : list (list string);      (* the command line of every Popen(...) *)
  kills : nat                            (* the number of p.kill() calls *)
}.

Definition log_error (msg : string) (st : state) : state :=
  State (rse_ans st) (heap st) ((errlog st ++ [msg])%list) (popen_calls st) (kills st).

(** The command line: [-l] and [-i] are appended when missing. *)
Definition shell_argv (shell : list string) : list string :=
  let shell :=
    if bool_decide ("-l" ∉ shell) && bool_decide ("--login" ∉ shell)
    then (shell ++ ["-l"])%list else shell in
  let shell :=
    if bool_decide ("-i" ∉ shell) && bool_decide ("--interactive" ∉ shell)
    then (shell ++ ["-i"])%list else shell in
  (shell ++ ["-c"; "env"])%list.

(** [shell] is [resolved_shell(opts)]. The function returns the dict
    object or lets an exception of [Popen] through. *)
Definition read_shell_environment (shell : list string) (w : shell_script) (st : state)
  : result loc * state :=
  match rse_ans st with
  | Some ans => (Ok ans, st)
  | None =>
      let ans := fresh (dom (heap st)) in
      let st := State (Some ans) (<[ans := ∅]> (heap st)) (errlog st)
                  ((popen_calls st ++ [shell_argv shell])%list) (kills st) in
      match sh_popen w with
      | PopenRaises e => (OSError e, st)
      | FileNotFound =>
          (Ok ans, log_error "Could not find shell to read environment" st)
      | Started =>
          let '(returncode, raw) := poll_loop (sh_polls w) "" in
          match returncode with
          | None =>
              let st := log_error
                "Timed out waiting for shell to quit while reading shell environment" st in
              (Ok ans, State (rse_ans st) (heap st) (errlog st) (popen_calls st) (S (kills st)))
          | Some 0%Z =>
              let raw := drain_loop (sh_drain w) raw in
              let draw := decode raw in
              (Ok ans,
               State (rse_ans st) (alter (fun d => parse_env d draw) ans (heap st))
                 (errlog st) (popen_calls st) (kills st))
          | Some _ =>
              (Ok ans, log_error "Failed to run shell to read its environment" st)
          end
      end
  end.

(** The mapping the caller holds after a call. *)
Definition mapping_of (r : result loc * state) : option (gmap ustr ustr) :=
  match r.1 with
  | Ok l => heap r.2 !! l
  | OSError _ => None
  end.

(** In the words of the specification: the entry a line stands for, when
    it has a non-empty part before its first [=] and a non-empty part
    after it. *)
Definition entry_of_line (line : ustr) : option (ustr * ustr) :=
  let '(k, v) := partition_eq line in
  match k, v with
  | _ :: _, _ :: _ => Some (k, v)
  | _, _ => None
  end.

End ShellEnv.

(** * Properties *)

(** ** Names and paths *)

Section Paths.

Implicit Types (a b s x : string) (E : penv).

Lemma append_assoc a b s : ((a ++ b) ++ s)%string = (a ++ b ++ s)%string.
Proof.
  induction a as [|c a IH]; [done |].
  change (String c ((a ++ b) ++ s) = String c (a ++ b ++ s))%string.
  by rewrite IH.
Qed.

Lemma rpartition_head_ext x :
  Py.rpartition_head "." (x ++ ".lock") = Some x.
Proof.
  induction x as [|c x IH]; [done |].
  change (String c x ++ ".lock")%string with (String c (x ++ ".lock")).
  cbn. by rewrite IH.
Qed.

Lemma rpartition0_lock x : Py.rpartition0 "." (x ++ ".lock") = x.
Proof. unfold Py.rpartition0. by rewrite rpartition_head_ext. Qed.

(** Whether [os.path.join] keeps the directory depends on the first
    character of the file name only. *)
Lemma starts_with_sep_ext x ext ext' :
  Py.starts_with_sep ext = false -> Py.starts_with_sep ext' = false ->
  Py.starts_with_sep (x ++ ext) = Py.starts_with_sep (x ++ ext').
Proof.
  intros H1 H2. destruct x; [| done].
  change (Py.starts_with_sep ext = Py.starts_with_sep ext'). congruence.
Qed.

Lemma path_join_lock_sock a x :
  Py.rpartition0 "." (Py.path_join a (x ++ ".lock")) ++ ".sock"
  = Py.path_join a (x ++ ".sock").
Proof.
  unfold Py.path_join.
  rewrite (starts_with_sep_ext x ".lock" ".sock") by done.
  destruct (Py.starts_with_sep (x ++ ".sock")).
  - by rewrite rpartition0_lock.
  - destruct (String.eqb a "" || Py.ends_with_sep a)%bool.
    + by rewrite <- !append_assoc, rpartition0_lock.
    + rewrite <- (append_assoc "/" x ".lock"), <- (append_assoc a ("/" ++ x) ".lock").
      rewrite rpartition0_lock.
      by rewrite !append_assoc.
Qed.

(** C8, as stated, at the empty group id: the claim appends ["-" ++ ""],
    the code appends nothing. *)
Lemma instance_name_empty_group :
  let E := {| appname := "kitty"; euid := 1000; home := "/home/u"; tempdir := "/tmp";
              is_macos := false; user_cache_dir := "" |} in
  instance_name E (Some "") = "kitty-ipc-1000"
  /\ instance_name E (Some "")
     <> (appname E ++ "-ipc-" ++ Py.str_of_N (euid E) ++ "-" ++ "")%string.
Proof. by vm_compute. Qed.

(** C8 (amended): the canonical name is the application name, ["-ipc-"]
    and the effective user id in decimal, with ["-<group_id>"] appended
    exactly when the group id is a non-empty string ([None] and [''] leave
    the name as it is); the abstract address is a NUL byte followed by the
    name. *)
Theorem instance_name_spec E (group_id : option string) :
  let base := (appname E ++ "-ipc-" ++ Py.str_of_N (euid E))%string in
  instance_name E group_id
  = match group_id with
    | Some (String c g) => (base ++ "-" ++ String c g)%string
    | Some EmptyString | None => base
    end
  /\ abstract_addr (instance_name E group_id) = String "000" (instance_name E group_id).
Proof.
  split; [|done].
  unfold instance_name.
  destruct group_id as [[|c g]|]; simpl; [done | | done].
  by rewrite !append_assoc.
Qed.

(** C9: for every directory [loc] and every name, the lockfile path is
    [os.path.join(loc, filename + '.lock')] where the file name is the name
    with a leading dot exactly when [loc] is the home directory, and the
    socket path is the same file name with the extension [.sock], joined
    to the same directory. *)
Theorem unix_socket_paths_spec E (name loc : string) :
  let filename := if decide (loc = home E) then ("." ++ name)%string else name in
  unix_socket_path E name ".lock" loc = Py.path_join loc (filename ++ ".lock")
  /\ socket_path_of (unix_socket_path E name ".lock" loc)
     = Py.path_join loc (filename ++ ".sock").
Proof.
  cbn zeta. unfold unix_socket_path, socket_path_of.
  assert (Hfile : ((if String.eqb loc (home E) then "." else "") ++ name ++ ".lock")%string
                  = ((if decide (loc = home E) then "." ++ name else name) ++ ".lock")%string).
  { destruct (String.eqb_spec loc (home E)), (decide (loc = home E)); try done.
  }
  rewrite Hfile. split; [done |].
  apply path_join_lock_sock.
Qed.

End Paths.

(** ** Running the single-instance programs *)

(** Evaluate the closed tests on errnos and flags in the goal. *)
Ltac eval_decide :=
  repeat match goal with
    | |- context [bool_decide ?P] =>
        let b := eval vm_compute in (bool_decide P) in
        change (bool_decide P) with b; cbv iota
    end.

Section Exec.

Context {S : Type} (h : handler S).

Lemma exec_from_sys {A T} (c : syscall T) (k : result T -> prog A) σ py tr :
  exec_from h (Sys c k) σ py tr
  = exec_from h (k (h T c σ).1) (h T c σ).2 py (tr ++ [Ev c (h T c σ).1]).
Proof. cbn. by destruct (h T c σ). Qed.

(** A call outside a [try] that fails ends the run. *)
Lemma exec_from_call_err {A B T} (c : syscall T) (f : A -> prog B)
    (g : T -> prog A) e σ σ' py tr :
  h T c σ = (OSError e, σ') ->
  exec_from h (x ← (y ← call c; g y); f x) σ py tr
  = (σ', Proc (Raise e) py (tr ++ [Ev c (OSError e)])).
Proof. intros Hc. cbn. by rewrite Hc. Qed.

End Exec.

(** The generator under the kernel: the [os.access] calls leave the
    kernel as it is, and the loop body runs on the first accessible
    candidate. *)
Lemma exec_single_instance_unix_from p E name cands k py tr :
  exec_from (kernel_handle p) (single_instance_unix_from E name cands) k py tr
  = match next_accessible k cands with
    | Some (loc, _) =>
        exec_from (kernel_handle p)
          (single_instance_unix_body (unix_socket_path E name ".lock" loc))
          k py (tr ++ access_events k cands)
    | None => (k, Proc (Ret false) py (tr ++ access_events k cands))
    end.
Proof.
  revert tr. induction cands as [|loc rest IH]; intros tr.
  - cbn. by rewrite app_nil_r.
  - cbn [next_accessible access_events].
    unfold single_instance_unix_from, unix_socket_paths_next in *.
    cbn [unix_socket_directories_next]. cbn -[single_instance_unix_body].
    destruct (bool_decide (loc ∈ k_access k)).
    + done.
    + etrans; [apply IH |].
      by rewrite <- !app_assoc.
Qed.

(** ** The abstract-namespace attempt *)

(** C6: whatever answers the calls, the bind to the abstract address has
    three handled outcomes and one unhandled. Success: the socket listens,
    is stored in [single_instance.socket], gets its close-on-exit handler,
    and the call returns [True] (Server). [EADDRINUSE]: the same socket
    connects to the same address, is stored, and the call returns [False]
    (Client). [ENOENT]: the call continues as [single_instance_unix(name)].
    Any other errno is raised to the caller after the bind, with nothing
    stored. *)
Theorem single_instance_abstract_bind {S : Type} (h : handler S)
    (E : penv) (group_id : option string) (σ σ1 σ2 : S) (s : sock) (r : result unit) :
  let name := instance_name E group_id in
  let addr := abstract_addr name in
  let tr := [Ev socket_socket (Ok s); Ev (sock_bind s addr) r] in
  h _ socket_socket σ = (Ok s, σ1) ->
  h _ (sock_bind s addr) σ1 = (r, σ2) ->
  match r with
  | Ok _ =>
      forall σ3 σ4 : S,
        h _ (sock_listen s) σ2 = (Ok (), σ3) ->
        h _ (sock_set_inheritable s false) σ3 = (Ok (), σ4) ->
        exec h (single_instance E group_id) σ
        = (σ4, Proc (Ret true) (PyState (Some s) [RemoveSocketFile s None])
                 (tr ++ [Ev (sock_listen s) (Ok ());
                         Ev (sock_set_inheritable s false) (Ok ())]))
  | OSError EADDRINUSE =>
      forall σ3 : S,
        h _ (sock_connect s addr) σ2 = (Ok (), σ3) ->
        exec h (single_instance E group_id) σ
        = (σ3, Proc (Ret false) (PyState (Some s) [])
                 (tr ++ [Ev (sock_connect s addr) (Ok ())]))
  | OSError ENOENT =>
      exec h (single_instance E group_id) σ
      = exec_from h (single_instance_unix E name) σ2 py_init tr
  | OSError e =>
      exec h (single_instance E group_id) σ = (σ2, Proc (Raise e) py_init tr)
  end.
Proof.
  intros name addr tr Hsock Hbind.
  unfold exec, single_instance. fold name addr.
  cbn -[single_instance_unix]. rewrite Hsock.
  cbn -[single_instance_unix]. rewrite Hbind.
  destruct r as [[]|e].
  - intros σ3 σ4 Hlisten Hinh.
    cbn. rewrite Hlisten. cbn. by rewrite Hinh.
  - destruct e; eval_decide; cbn -[single_instance_unix]; try done.
    intros σ3 Hconn. by rewrite Hconn.
Qed.

Definition kitty_env : penv :=
  {| appname := "kitty"; euid := 1000; home := "/home/u"; tempdir := "/tmp";
     is_macos := false; user_cache_dir := "" |}.

(** A kernel with the abstract namespace and nothing bound. *)
Definition linux_idle : kernel := Kernel true {["/tmp"]} ∅ ∅ ∅ ∅ ∅.

Lemma single_instance_abstract_bind_witness :
  exists k' : kernel,
    exec (kernel_handle 0) (single_instance kitty_env None) linux_idle
    = (k', Proc (Ret true) (PyState (Some 0) [RemoveSocketFile 0 None])
             [Ev socket_socket (Ok 0);
              Ev (sock_bind 0 (abstract_addr "kitty-ipc-1000")) (Ok ());
              Ev (sock_listen 0) (Ok ());
              Ev (sock_set_inheritable 0 false) (Ok ())]).
Proof.
  eexists.
  eapply (single_instance_abstract_bind (kernel_handle 0) kitty_env None
            linux_idle _ _ 0 (Ok ())); vm_compute; reflexivity.
Defined.

(** ** Facts about the kernel model *)

Lemma append_inv_head (a b c : string) : (a ++ b)%string = (a ++ c)%string -> b = c.
Proof.
  induction a as [|x a IH]; [done |].
  change (String x (a ++ b) = String x (a ++ c) -> b = c)%string.
  intros [= H]. by apply IH.
Qed.

Lemma unix_socket_path_join E name loc :
  exists filename : string,
    unix_socket_path E name ".lock" loc = Py.path_join loc (filename ++ ".lock")
    /\ socket_path_of (unix_socket_path E name ".lock" loc)
       = Py.path_join loc (filename ++ ".sock").
Proof.
  exists ((if String.eqb loc (home E) then "." else "") ++ name)%string.
  unfold socket_path_of, unix_socket_path. rewrite <- append_assoc.
  split; [done | apply path_join_lock_sock].
Qed.

(** The socket path is never the lockfile path. *)
Lemma socket_path_neq E name loc :
  socket_path_of (unix_socket_path E name ".lock" loc)
  <> unix_socket_path E name ".lock" loc.
Proof.
  destruct (unix_socket_path_join E name loc) as (f & -> & ->).
  unfold Py.path_join.
  rewrite (starts_with_sep_ext f ".lock" ".sock") by done.
  repeat case_match; intros Heq.
  - by apply append_inv_head in Heq.
  - by do 2 apply append_inv_head in Heq.
  - rewrite <- !append_assoc in Heq. by apply append_inv_head in Heq.
Qed.

Lemma own_sock_Some p k s i :
  own_sock p k s = Some i -> k_socks k !! s = Some i /\ so_owner i = p.
Proof. unfold own_sock. repeat case_match; naive_solver. Qed.

Lemma own_sock_fresh p k f :
  own_sock p (set_socks (insert (fresh (dom (k_socks k))) (SockInfo p None false None)) (f k))
    (fresh (dom (k_socks k)))
  = Some (SockInfo p None false None).
Proof. unfold own_sock. cbn. rewrite lookup_insert_eq. cbn. by rewrite decide_True. Qed.

Lemma fresh_sock_None (k : kernel) : k_socks k !! fresh (dom (k_socks k)) = None.
Proof. apply not_elem_of_dom, is_fresh. Qed.

Lemma fresh_fd_None (k : kernel) : k_fds k !! fresh (dom (k_fds k)) = None.
Proof. apply not_elem_of_dom, is_fresh. Qed.

Lemma listening_Some k t :
  listening k t = true -> exists i, k_socks k !! t = Some i /\ so_listening i = true.
Proof. unfold listening. case_match; naive_solver. Qed.

Lemma listener_at_listening k addr t : listener_at k addr = Ok t -> listening k t = true.
Proof. unfold listener_at. repeat case_match; naive_solver. Qed.

(** A listener stays one when the tables around it are left alone. *)
Lemma listener_at_frame k k' addr t :
  listener_at k addr = Ok t ->
  k_abstract k' = k_abstract k -> k_abs k' = k_abs k ->
  k_files k' !! addr = k_files k !! addr ->
  listening k' t = true ->
  listener_at k' addr = Ok t.
Proof.
  unfold listener_at. intros H -> -> -> Hl.
  repeat case_match; simplify_eq; try done; congruence.
Qed.

(** ** The filesystem protocol under the kernel *)

Definition lock_flags : list open_flag := [O_CREAT; O_WRONLY; O_TRUNC; O_CLOEXEC].

(** The run of the loop body when another process holds the lock and a
    server listens at the socket path. *)
Lemma exec_body_lock_held p q k path c t py tr :
  let sp := socket_path_of path in
  let f := fresh (dom (k_fds k)) in
  let s := fresh (dom (k_socks k)) in
  sp <> path ->
  k_files k !! path = Some (Regular c) ->
  k_locks k !! path = Some q -> q <> p ->
  listener_at k sp = Ok t ->
  exec_from (kernel_handle p) (single_instance_unix_body path) k py tr
  = (set_socks (insert s (SockInfo p None false (Some sp)))
       (set_socks (insert s (SockInfo p None false None))
          (set_fds (insert f (p, path)) (set_files (insert path (Regular "")) k))),
     Proc (Ret false) (PyState (Some s) (atexit_registry py))
       (tr ++ [Ev (os_open path lock_flags) (Ok f);
               Ev (fcntl_lockf f) (OSError EAGAIN);
               Ev socket_socket (Ok s);
               Ev (sock_connect s sp) (Ok ())])).
Proof.
  intros sp f s Hne Hfile Hlock Hq Hlisten.
  unfold single_instance_unix_body. fold sp.
  cbn -[sp]. unfold k_open. rewrite Hfile. eval_decide. fold f.
  cbn -[sp]. unfold k_lockf. cbn -[sp]. rewrite lookup_insert_eq. cbn -[sp].
  rewrite decide_True by done. rewrite Hlock, decide_False by done.
  eval_decide. cbn -[sp]. unfold k_socket. cbn -[sp]. fold s.
  unfold k_connect. rewrite (own_sock_fresh p k (fun k => set_fds _ (set_files _ k))).
  erewrite listener_at_frame; [| exact Hlisten | done | done | | ].
  - cbn -[sp]. by rewrite <- !app_assoc.
  - cbn. by rewrite lookup_insert_ne.
  - apply listener_at_listening, listening_Some in Hlisten as (i & Hi & Hl).
    unfold listening. cbn. rewrite lookup_insert_ne; [by rewrite Hi |].
    intros Heq. pose proof (fresh_sock_None k) as Hf. fold s in Hf. congruence.
Qed.

(** A kernel without the abstract namespace on which process 5 serves:
    it holds the lock on the lockfile in /tmp and listens at the socket
    path; somebody has written into the lockfile. *)
Definition held_kernel : kernel :=
  Kernel false {["/tmp"]}
    (<["/tmp/kitty-ipc-1000.lock" := Regular "1234"]>
       {["/tmp/kitty-ipc-1000.sock" := SocketFile 7]})
    ∅
    {[7 := SockInfo 5 (Some "/tmp/kitty-ipc-1000.sock") true None]}
    {[3 := (5, "/tmp/kitty-ipc-1000.lock")]}
    {["/tmp/kitty-ipc-1000.lock" := 5]}.

(** C2, as stated, fails: the lock is held by process 5, process 0 becomes
    Client, and the lockfile it opened with [O_CREAT | O_TRUNC] before the
    lock attempt has lost its content. *)
Lemma lock_held_lockfile_truncated :
  let path := "/tmp/kitty-ipc-1000.lock" in
  let res := exec (kernel_handle 0) (single_instance_unix kitty_env "kitty-ipc-1000")
               held_kernel in
  k_locks held_kernel !! path = Some 5
  /\ outcome_of res.2 = Returned false
  /\ k_files held_kernel !! path = Some (Regular "1234")
  /\ k_files res.1 !! path = Some (Regular "")
  /\ k_files res.1 !! path <> k_files held_kernel !! path.
Proof. by vm_compute. Qed.

(** C2 (amended): when the lock on the lockfile is held by another
    process, the caller becomes Client by connecting a new socket to the
    sibling [.sock] path. Before the lock attempt it has opened the
    lockfile with [O_CREAT | O_WRONLY | O_TRUNC], so the lockfile is left
    empty; after the failed attempt ([EAGAIN] or [EACCES]) it makes no
    call on the lockfile, and the lock table is unchanged. *)
Theorem single_instance_unix_lock_held :
  (forall (S : Type) (h : handler S) (path : string) (σ σ1 σ2 σ3 σ4 : S)
          (f : fd) (e : errno) (s : sock),
      h _ (os_open path lock_flags) σ = (Ok f, σ1) ->
      h _ (fcntl_lockf f) σ1 = (OSError e, σ2) ->
      e ∈ [EAGAIN; EACCES] ->
      h _ socket_socket σ2 = (Ok s, σ3) ->
      h _ (sock_connect s (socket_path_of path)) σ3 = (Ok (), σ4) ->
      exec h (single_instance_unix_body path) σ
      = (σ4, Proc (Ret false) (PyState (Some s) [])
               [Ev (os_open path lock_flags) (Ok f);
                Ev (fcntl_lockf f) (OSError e);
                Ev socket_socket (Ok s);
                Ev (sock_connect s (socket_path_of path)) (Ok ())]))
  /\ (forall (p q : pid) (E : penv) (name loc c : string) (k : kernel) (t : sock),
      let path := unix_socket_path E name ".lock" loc in
      let sp := socket_path_of path in
      let res := exec (kernel_handle p) (single_instance_unix E name) k in
      let s := fresh (dom (k_socks k)) in
      first_accessible k (socket_dir_candidates E) = Some loc ->
      k_files k !! path = Some (Regular c) ->
      k_locks k !! path = Some q -> q <> p ->
      listener_at k sp = Ok t ->
      outcome_of res.2 = Returned false
      /\ si_socket (p_py res.2) = Some s
      /\ so_peer <$> k_socks res.1 !! s = Some (Some sp)
      /\ k_locks res.1 = k_locks k
      /\ k_files res.1 = <[path := Regular ""]> (k_files k)
      /\ p_trace res.2
         = (access_events k (socket_dir_candidates E)
            ++ [Ev (os_open path lock_flags) (Ok (fresh (dom (k_fds k))));
                Ev (fcntl_lockf (fresh (dom (k_fds k)))) (OSError EAGAIN);
                Ev socket_socket (Ok s);
                Ev (sock_connect s sp) (Ok ())])%list).
Proof.
  split.
  - intros S h path σ σ1 σ2 σ3 σ4 f e s Hopen Hlock He Hsock Hconn.
    unfold exec, single_instance_unix_body, lock_flags in *.
    cbn. rewrite Hopen. cbn. rewrite Hlock.
    rewrite bool_decide_eq_true_2 by done.
    cbn. rewrite Hsock. cbn. by rewrite Hconn.
  - intros p q E name loc c k t path sp res s Hfirst Hfile Hlock Hq Hlisten.
    unfold first_accessible in Hfirst.
    destruct (next_accessible k (socket_dir_candidates E)) as [[loc' rest]|] eqn:Hnext;
      [| done].
    injection Hfirst as ->.
    assert (Hres : res = exec_from (kernel_handle p) (single_instance_unix_body path) k
                           py_init ([] ++ access_events k (socket_dir_candidates E))%list).
    { unfold res, exec, single_instance_unix.
      by rewrite exec_single_instance_unix_from, Hnext. }
    rewrite (exec_body_lock_held p q k path c t) in Hres
      by (done || apply socket_path_neq).
    rewrite Hres. cbn -[path sp]. rewrite lookup_insert_eq.
    by repeat split.
Qed.

Lemma single_instance_unix_lock_held_witness :
  let res := exec (kernel_handle 0) (single_instance_unix kitty_env "kitty-ipc-1000")
               held_kernel in
  outcome_of res.2 = Returned false
  /\ si_socket (p_py res.2) = Some 8
  /\ k_locks res.1 = k_locks held_kernel.
Proof.
  destruct single_instance_unix_lock_held as [_ H].
  destruct (H 0 5 kitty_env "kitty-ipc-1000" "/tmp" "1234" held_kernel 7)
    as (H1 & H2 & _ & H4 & _);
    [by vm_compute .. | exact (conj H1 (conj H2 H4))].
Defined.

(** The run of the loop body when the lock is free and a file left over
    from an earlier run sits at the socket path. *)
Lemma exec_body_stale_socket p k path n py tr :
  let sp := socket_path_of path in
  let f := fresh (dom (k_fds k)) in
  let s := fresh (dom (k_socks k)) in
  let k1 := set_locks (insert path p)
              (set_fds (insert f (p, path))
                 (set_files (insert path (Regular "")) k)) in
  let k2 := set_socks (insert s (SockInfo p None false None)) k1 in
  let k3 := set_socks (insert s (SockInfo p (Some sp) false None))
              (set_files (insert sp (SocketFile s)) (set_files (delete sp) k2)) in
  let k4 := set_socks (insert s (SockInfo p (Some sp) true None)) k3 in
  sp <> path ->
  is_abstract sp = false ->
  (forall t, k_files k !! path <> Some (SocketFile t)) ->
  k_locks k !! path = None ->
  k_files k !! sp = Some n ->
  exec_from (kernel_handle p) (single_instance_unix_body path) k py tr
  = (k4,
     Proc (Ret true)
       (PyState (Some s) (atexit_registry py ++ [RemoveSocketFile s (Some sp)]))
       (tr ++ [Ev (os_open path lock_flags) (Ok f);
               Ev (fcntl_lockf f) (Ok ());
               Ev socket_socket (Ok s);
               Ev (sock_bind s sp) (OSError EADDRINUSE);
               Ev (os_unlink sp) (Ok ());
               Ev (sock_bind s sp) (Ok ());
               Ev (sock_listen s) (Ok ());
               Ev (sock_set_inheritable s false) (Ok ())])%list).
Proof.
  intros sp f s k1 k2 k3 k4 Hne Habs Hfile Hlock Hstale.
  assert (Hopen : k_open p path lock_flags k
                  = (Ok f, set_fds (insert f (p, path))
                             (set_files (insert path (Regular "")) k))).
  { unfold k_open. fold f. destruct (k_files k !! path) as [[c|t]|] eqn:Hp.
    - by eval_decide.
    - by destruct (Hfile t).
    - by eval_decide. }
  unfold single_instance_unix_body, lock_flags in *. fold sp.
  cbn -[sp k_open]. rewrite Hopen.
  cbn -[sp]. unfold k_lockf. cbn -[sp]. rewrite lookup_insert_eq. cbn -[sp].
  rewrite decide_True by done. rewrite Hlock.
  cbn -[sp]. unfold k_socket. cbn -[sp]. fold s.
  unfold k_bind at 1.
  rewrite (own_sock_fresh p k
             (fun k => set_locks _ (set_fds _ (set_files _ k)))).
  cbn -[sp]. rewrite Habs. rewrite lookup_insert_ne by done. rewrite Hstale.
  eval_decide. cbn -[sp]. unfold k_unlink. cbn -[sp].
  rewrite lookup_insert_ne by done. rewrite Hstale.
  cbn -[sp]. unfold k_bind, own_sock. cbn -[sp].
  rewrite lookup_insert_eq. cbn -[sp]. rewrite decide_True by done.
  cbn -[sp]. rewrite Habs, lookup_delete_eq.
  cbn -[sp]. unfold k_listen, own_sock. cbn -[sp].
  rewrite lookup_insert_eq. cbn -[sp]. rewrite decide_True by done.
  cbn -[sp]. unfold k_set_inheritable, own_sock. cbn -[sp].
  rewrite lookup_insert_eq. cbn -[sp]. rewrite decide_True by done.
  cbn -[sp]. rewrite <- !app_assoc. cbn -[sp].
  unfold k4, k3, k2, k1, set_socks, set_files, set_locks, set_fds. cbn -[sp].
  by rewrite !insert_insert_eq.
Qed.

(** A kernel without the abstract namespace where an earlier server has
    gone and left its socket file behind. *)
Definition stale_kernel : kernel :=
  Kernel false {["/tmp"]} {["/tmp/kitty-ipc-1000.sock" := SocketFile 7]} ∅ ∅ ∅ ∅.

(** C7: with the lock acquired and a file already at the socket path, the
    first bind fails with [EADDRINUSE]; the process unlinks the socket
    path, binds again, now with success, listens and returns [True]. For
    a bind error other than [EADDRINUSE] and [EEXIST] the error is raised
    to the caller and no second bind is made. *)
Theorem single_instance_unix_stale_socket :
  (forall (p : pid) (E : penv) (name loc : string) (k : kernel) (n : node),
      let path := unix_socket_path E name ".lock" loc in
      let sp := socket_path_of path in
      let res := exec (kernel_handle p) (single_instance_unix E name) k in
      let f := fresh (dom (k_fds k)) in
      let s := fresh (dom (k_socks k)) in
      first_accessible k (socket_dir_candidates E) = Some loc ->
      is_abstract sp = false ->
      (forall t, k_files k !! path <> Some (SocketFile t)) ->
      k_locks k !! path = None ->
      k_files k !! sp = Some n ->
      outcome_of res.2 = Returned true
      /\ p_py res.2 = PyState (Some s) [RemoveSocketFile s (Some sp)]
      /\ k_files res.1 !! sp = Some (SocketFile s)
      /\ listening res.1 s = true
      /\ k_locks res.1 !! path = Some p
      /\ p_trace res.2
         = (access_events k (socket_dir_candidates E)
            ++ [Ev (os_open path lock_flags) (Ok f);
                Ev (fcntl_lockf f) (Ok ());
                Ev socket_socket (Ok s);
                Ev (sock_bind s sp) (OSError EADDRINUSE);
                Ev (os_unlink sp) (Ok ());
                Ev (sock_bind s sp) (Ok ());
                Ev (sock_listen s) (Ok ());
                Ev (sock_set_inheritable s false) (Ok ())])%list)
  /\ (forall (S : Type) (h : handler S) (path : string) (σ σ1 σ2 σ3 σ4 : S)
             (f : fd) (s : sock) (e : errno),
      h _ (os_open path lock_flags) σ = (Ok f, σ1) ->
      h _ (fcntl_lockf f) σ1 = (Ok (), σ2) ->
      h _ socket_socket σ2 = (Ok s, σ3) ->
      h _ (sock_bind s (socket_path_of path)) σ3 = (OSError e, σ4) ->
      e ∉ [EADDRINUSE; EEXIST] ->
      exec h (single_instance_unix_body path) σ
      = (σ4, Proc (Raise e) py_init
               [Ev (os_open path lock_flags) (Ok f);
                Ev (fcntl_lockf f) (Ok ());
                Ev socket_socket (Ok s);
                Ev (sock_bind s (socket_path_of path)) (OSError e)])).
Proof.
  split.
  - intros p E name loc k n path sp res f s Hfirst Habs Hfile Hlock Hstale.
    unfold first_accessible in Hfirst.
    destruct (next_accessible k (socket_dir_candidates E)) as [[loc' rest]|] eqn:Hnext;
      [| done].
    injection Hfirst as ->.
    assert (Hres : res = exec_from (kernel_handle p) (single_instance_unix_body path) k
                           py_init ([] ++ access_events k (socket_dir_candidates E))%list).
    { unfold res, exec, single_instance_unix.
      by rewrite exec_single_instance_unix_from, Hnext. }
    rewrite (exec_body_stale_socket p k path n) in Hres
      by (done || apply socket_path_neq).
    rewrite Hres. cbn -[path sp]. unfold listening. cbn -[path sp].
    by rewrite !lookup_insert_eq.
  - intros S h path σ σ1 σ2 σ3 σ4 f s e Hopen Hlock Hsock Hbind He.
    unfold exec, single_instance_unix_body, lock_flags in *.
    cbn. rewrite Hopen. cbn. rewrite Hlock. cbn. rewrite Hsock. cbn. rewrite Hbind.
    by rewrite bool_decide_eq_false_2.
Qed.

Lemma single_instance_unix_stale_socket_witness :
  let res := exec (kernel_handle 0) (single_instance_unix kitty_env "kitty-ipc-1000")
               stale_kernel in
  outcome_of res.2 = Returned true
  /\ k_files res.1 !! "/tmp/kitty-ipc-1000.sock" = Some (SocketFile 0)
  /\ listening res.1 0 = true.
Proof.
  destruct single_instance_unix_stale_socket as [H _].
  destruct (H 0 kitty_env "kitty-ipc-1000" "/tmp" stale_kernel (SocketFile 7))
    as (H1 & _ & H3 & H4 & _);
    [by vm_compute .. | exact (conj H1 (conj H3 H4))].
Defined.

(** ** No accessible directory *)

Definition is_access_denied (ev : event) : Prop :=
  match ev with
  | Ev c r =>
      match c in syscall T return result T -> Prop with
      | os_access _ _ => fun r => r = Ok false
      | _ => fun _ => False
      end r
  end.

Lemma access_events_denied k cands :
  next_accessible k cands = None ->
  Forall is_access_denied (access_events k cands).
Proof.
  induction cands as [|loc rest IH]; cbn; [constructor |].
  destruct (bool_decide (loc ∈ k_access k)); [done |].
  intros H. constructor; [done | by apply IH].
Qed.

Lemma next_accessible_ext k k' cands :
  k_access k' = k_access k -> next_accessible k' cands = next_accessible k cands.
Proof. intros H. induction cands as [|loc rest IH]; cbn; [done |]. by rewrite H, IH. Qed.

Lemma access_events_ext k k' cands :
  k_access k' = k_access k -> access_events k' cands = access_events k cands.
Proof. intros H. induction cands as [|loc rest IH]; cbn; [done |]. by rewrite H, IH. Qed.

(** C10: when no candidate directory is accessible the loop body never
    runs: [single_instance_unix] returns [False] having made only the
    refused [os.access] calls, the kernel is as before, nothing is stored
    in [single_instance.socket] and nothing is raised; on a platform
    without the abstract namespace the whole call returns [False] the same
    way, its socket connected to nothing. *)
Theorem single_instance_unix_no_directory (p : pid) (E : penv)
    (group_id : option string) (k : kernel) :
  let name := instance_name E group_id in
  let res := exec (kernel_handle p) (single_instance E group_id) k in
  first_accessible k (socket_dir_candidates E) = None ->
  exec (kernel_handle p) (single_instance_unix E name) k
  = (k, Proc (Ret false) py_init (access_events k (socket_dir_candidates E)))
  /\ Forall is_access_denied (access_events k (socket_dir_candidates E))
  /\ (k_abstract k = false ->
      outcome_of res.2 = Returned false
      /\ si_socket (p_py res.2) = None
      /\ p_trace res.2
         = (Ev socket_socket (Ok (fresh (dom (k_socks k))))
            :: Ev (sock_bind (fresh (dom (k_socks k))) (abstract_addr name)) (OSError ENOENT)
            :: access_events k (socket_dir_candidates E))
      /\ so_peer <$> k_socks res.1 !! fresh (dom (k_socks k)) = Some None).
Proof.
  intros name res Hfirst. unfold first_accessible in Hfirst.
  destruct (next_accessible k (socket_dir_candidates E)) as [[loc rest]|] eqn:Hnext;
    [done |].
  split; [| split].
  - unfold exec, single_instance_unix.
    by rewrite exec_single_instance_unix_from, Hnext.
  - by apply access_events_denied.
  - intros Habs. unfold res, exec, single_instance. fold name.
    cbn -[single_instance_unix]. unfold k_bind.
    rewrite (own_sock_fresh p k (fun k => k)).
    cbn -[single_instance_unix]. rewrite Habs.
    eval_decide. unfold single_instance_unix.
    rewrite exec_single_instance_unix_from.
    rewrite (next_accessible_ext k), (access_events_ext k), Hnext by done.
    cbn. by rewrite lookup_insert_eq.
Qed.

(** A kernel without the abstract namespace and without any accessible
    directory. *)
Definition barren_kernel : kernel := Kernel false ∅ ∅ ∅ ∅ ∅ ∅.

Lemma single_instance_unix_no_directory_witness :
  exec (kernel_handle 0) (single_instance_unix kitty_env "kitty-ipc-1000") barren_kernel
  = (barren_kernel,
     Proc (Ret false) py_init
       [Ev (os_access "/tmp" [W_OK; R_OK; X_OK]) (Ok false);
        Ev (os_access "/home/u" [W_OK; R_OK; X_OK]) (Ok false)]).
Proof.
  destruct (single_instance_unix_no_directory 0 kitty_env None barren_kernel)
    as (H & _); [by vm_compute | exact H].
Defined.

(** ** The shell environment *)

Module ShellEnvFacts.
Import ShellEnv.

Implicit Types (k v line : ustr) (lines : list ustr) (m : gmap ustr ustr).

(** In the words of the specification: [(k, v)] is the entry of the last
    line of [lines] that stands for an entry with key [k]. *)
Definition last_entry lines k v : Prop :=
  exists l1 line l2,
    lines = (l1 ++ line :: l2)%list
    /\ entry_of_line line = Some (k, v)
    /\ Forall (fun line' => fst <$> entry_of_line line' <> Some k) l2.

Lemma add_line_entry m line :
  add_line m line
  = match entry_of_line line with
    | Some (k, v) => <[k := v]> m
    | None => m
    end.
Proof.
  unfold add_line, entry_of_line.
  destruct (partition_eq line) as [[|c k] [|d v]]; done.
Qed.

Lemma last_entry_nil k v : ~ last_entry [] k v.
Proof. intros (l1 & line & l2 & H & _). by destruct l1. Qed.

Lemma last_entry_snoc lines x k v :
  last_entry (lines ++ [x]) k v
  <-> entry_of_line x = Some (k, v)
      \/ (fst <$> entry_of_line x <> Some k /\ last_entry lines k v).
Proof.
  split.
  - intros (l1 & line & l2 & Heq & Hline & Hrest).
    destruct l2 as [|y l2 _] using rev_ind.
    + apply app_inj_tail in Heq as [-> ->]. by left.
    + rewrite app_comm_cons, app_assoc in Heq.
      apply app_inj_tail in Heq as [-> ->].
      apply Forall_app in Hrest as [Hrest Hx].
      right. split; [by inversion Hx |].
      by exists l1, line, l2.
  - intros [Hx | [Hx (l1 & line & l2 & -> & Hline & Hrest)]].
    + exists lines, x, []. by rewrite Forall_nil.
    + exists l1, line, (l2 ++ [x])%list. rewrite <- app_assoc. split; [done |].
      split; [done |]. apply Forall_app. split; [done |]. by constructor.
Qed.

(** The loop over the lines, started from an empty dict. *)
Lemma foldl_add_line_spec lines k v :
  foldl add_line ∅ lines !! k = Some v <-> last_entry lines k v.
Proof.
  revert k v. induction lines as [|x lines IH] using rev_ind; intros k v.
  - cbn. rewrite lookup_empty. split; [done | intros H; by apply last_entry_nil in H].
  - rewrite foldl_app. cbn [foldl]. rewrite add_line_entry, last_entry_snoc.
    destruct (entry_of_line x) as [[k' v']|] eqn:Hx; cbn.
    + destruct (decide (k' = k)) as [->|Hne].
      * rewrite lookup_insert_eq. split; [intros [= ->]; by left |].
        intros [[= ->] | [Hk _]]; [done | by destruct Hk].
      * rewrite lookup_insert_ne by done. rewrite IH. split.
        -- intros H. right. split; [congruence | done].
        -- intros [[= -> _] | [_ H]]; [by destruct Hne | done].
    + rewrite IH. split; [by right | by intros [|[_ H]]].
Qed.

Definition nl : string := String "010" "".

(** The output of the specification's example:
    [FOO=bar\nBAZ=\nMALFORMED\nQUX=1]. *)
Definition example_output : string :=
  "FOO=bar" ++ nl ++ "BAZ=" ++ nl ++ "MALFORMED" ++ nl ++ "QUX=1".

(** A first call: nothing cached, no dict allocated. *)
Definition fresh_state : state := State None ∅ [] [] 0.

(** A shell that exits with status zero at the first poll, its whole
    output already readable. *)
Definition exits_zero (output : string) : shell_script :=
  ShellScript Started [(Some 0%Z, ReadBytes output)] [].

(** C3, as stated, fails when a key repeats: two lines stand for an entry,
    the mapping has one entry, and the first line has none. *)
Lemma repeated_key_one_entry :
  let output := ("A=1" ++ nl ++ "A=2")%string in
  let res := read_shell_environment ["/bin/sh"] (exits_zero output) fresh_state in
  omap entry_of_line (splitlines (decode output))
  = [(lit "A", lit "1"); (lit "A", lit "2")]
  /\ (size <$> mapping_of res) = Some 1
  /\ mapping_of res = Some {[lit "A" := lit "2"]}.
Proof. by vm_compute. Qed.

(** C3 (amended): when the child exits with status zero on a first call,
    the returned mapping is built from the lines of the decoded output: it
    maps [k] to [v] exactly when [k = v] is the last line with a non-empty
    part [k] before its first [=] and a non-empty part after it; a later
    such line with the same key replaces an earlier one, and lines without
    [=], with an empty key or with an empty value contribute nothing. For
    the output [FOO=bar\nBAZ=\nMALFORMED\nQUX=1] the mapping is exactly
    [{FOO: "bar", QUX: "1"}]. *)
Theorem read_shell_environment_exit_zero :
  (forall (shell : list string) (w : shell_script) (st : state) (raw : string),
      let lines := splitlines (decode (drain_loop (sh_drain w) raw)) in
      rse_ans st = None ->
      sh_popen w = Started ->
      poll_loop (sh_polls w) "" = (Some 0%Z, raw) ->
      exists m,
        mapping_of (read_shell_environment shell w st) = Some m
        /\ forall k v, m !! k = Some v <-> last_entry lines k v)
  /\ mapping_of (read_shell_environment ["/bin/sh"] (exits_zero example_output) fresh_state)
     = Some {[lit "FOO" := lit "bar"; lit "QUX" := lit "1"]}.
Proof.
  split; [| by vm_compute].
  intros shell w st raw lines Hans Hpopen Hpoll.
  exists (foldl add_line ∅ lines). split; [| apply foldl_add_line_spec].
  unfold mapping_of, read_shell_environment.
  rewrite Hans, Hpopen, Hpoll. cbn.
  rewrite lookup_alter_eq, lookup_insert_eq. done.
Qed.

Lemma read_shell_environment_exit_zero_witness :
  exists m,
    mapping_of (read_shell_environment ["/bin/zsh"] (exits_zero example_output) fresh_state)
    = Some m
    /\ m !! lit "QUX" = Some (lit "1").
Proof.
  destruct read_shell_environment_exit_zero as [H _].
  destruct (H ["/bin/zsh"] (exits_zero example_output) fresh_state example_output)
    as (m & Hm & Hspec); [done .. |].
  exists m. split; [exact Hm |].
  apply Hspec.
  exists [lit "FOO=bar"; lit "BAZ="; lit "MALFORMED"], (lit "QUX=1"), [].
  by vm_compute.
Defined.

(** C4: whatever the first call did, it leaves a dict object in the
    attribute [ans]; every later call returns that same object, and leaves
    the whole state as it was: no subprocess is launched, nothing is
    logged, the dict is not touched. This includes the empty dict cached
    by a failure path. *)
Theorem read_shell_environment_cached
    (shell shell' : list string) (w w' : shell_script) (st : state) :
  let first := read_shell_environment shell w st in
  exists ans : loc,
    rse_ans first.2 = Some ans
    /\ (forall l, first.1 = Ok l -> l = ans)
    /\ read_shell_environment shell' w' first.2 = (Ok ans, first.2)
    /\ popen_calls (read_shell_environment shell' w' first.2).2 = popen_calls first.2
    /\ (rse_ans st = None -> sh_popen w = FileNotFound ->
        first.1 = Ok ans /\ heap first.2 !! ans = Some ∅).
Proof.
  intros first.
  assert (Hfirst : exists ans : loc,
             rse_ans first.2 = Some ans /\ (forall l, first.1 = Ok l -> l = ans)
             /\ (rse_ans st = None -> sh_popen w = FileNotFound ->
                 first.1 = Ok ans /\ heap first.2 !! ans = Some ∅)).
  { unfold first, read_shell_environment.
    destruct (rse_ans st) as [ans|] eqn:Hans.
    - exists ans. cbn. repeat split; congruence.
    - exists (fresh (dom (heap st))).
      destruct (sh_popen w) as [| |e].
      + destruct (poll_loop (sh_polls w) "") as [[[|rc|rc]|] raw]; cbn;
          repeat split; congruence.
      + cbn. rewrite lookup_insert_eq. repeat split; congruence.
      + cbn. repeat split; congruence. }
  destruct Hfirst as (ans & Hans & Hret & Hfail).
  assert (Hagain : read_shell_environment shell' w' first.2 = (Ok ans, first.2)).
  { unfold read_shell_environment. by rewrite Hans. }
  exists ans. by rewrite Hagain.
Qed.

(** C5: on a first call, each of the three subprocess failures gives the
    caller a dict that is empty, after one diagnostic has been logged:
    the shell is not found; the child exits with a non-zero status; the
    child is still running at the deadline, and is then killed. None of
    them raises. *)
Theorem read_shell_environment_failures
    (shell : list string) (w : shell_script) (st : state) :
  let res := read_shell_environment shell w st in
  let ans := fresh (dom (heap st)) in
  rse_ans st = None ->
  (sh_popen w = FileNotFound ->
     res.1 = Ok ans /\ mapping_of res = Some ∅
     /\ errlog res.2 = (errlog st ++ ["Could not find shell to read environment"])%list
     /\ kills res.2 = kills st)
  /\ (forall (rc : Z) (raw : string),
        sh_popen w = Started -> poll_loop (sh_polls w) "" = (Some rc, raw) -> rc <> 0%Z ->
        res.1 = Ok ans /\ mapping_of res = Some ∅
        /\ errlog res.2
           = (errlog st ++ ["Failed to run shell to read its environment"])%list
        /\ kills res.2 = kills st)
  /\ (forall raw : string,
        sh_popen w = Started -> poll_loop (sh_polls w) "" = (None, raw) ->
        res.1 = Ok ans /\ mapping_of res = Some ∅
        /\ errlog res.2
           = (errlog st
              ++ ["Timed out waiting for shell to quit while reading shell environment"])%list
        /\ kills res.2 = Datatypes.S (kills st)).
Proof.
  intros res ans Hans. unfold res, mapping_of, read_shell_environment. rewrite Hans.
  fold ans. split; [| split].
  - intros ->. cbn. by rewrite lookup_insert_eq.
  - intros rc raw -> -> Hrc. destruct rc; [done | |]; cbn; by rewrite lookup_insert_eq.
  - intros raw -> ->. cbn. by rewrite lookup_insert_eq.
Qed.

(** A shell that never exits: three polls pass before the deadline. *)
Definition hangs : shell_script :=
  ShellScript Started [(None, ReadNone); (None, ReadBytes "zsh: "); (None, ReadRaises)] [].

Lemma read_shell_environment_failures_witness :
  let res := read_shell_environment ["/bin/zsh"] hangs fresh_state in
  res.1 = Ok 0 /\ mapping_of res = Some ∅
  /\ errlog res.2
     = ["Timed out waiting for shell to quit while reading shell environment"]
  /\ kills res.2 = 1.
Proof.
  destruct (read_shell_environment_failures ["/bin/zsh"] hangs fresh_state)
    as (_ & _ & H); [done |].
  exact (H "zsh: " eq_refl eq_refl).
Defined.

End ShellEnvFacts.

(** * The other helpers of the module *)

(** ** [sanitize_for_bracketed_paste] *)

Module Paste.

Local Open Scope N_scope.
Local Open Scope list_scope.

(** Bytes are numbers below 256. *)
Definition bytes := list N.

(** The two spellings of the end of a bracketed paste that the pattern
    [(?:(?:\033\[)|(?:\x9b))201~] matches: ESC [ 2 0 1 ~ and CSI 2 0 1 ~. *)
Definition end_esc : bytes := [27; 91; 50; 48; 49; 126].
Definition end_csi : bytes := [155; 50; 48; 49; 126].

Fixpoint starts_with (pat text : bytes) : bool :=
  match pat, text with
  | [], _ => true
  | p :: pat', c :: text' => (p =? c) && starts_with pat' text'
  | _ :: _, [] => false
  end.

(** The length of the match of the pattern at the head of [text]. *)
Definition match_len (text : bytes) : option nat :=
  if starts_with end_esc text then Some (length end_esc)
  else if starts_with end_csi text then Some (length end_csi)
  else None.

(** [pat.sub(b'', text)]: scan from the left; at a match drop it and go on
    behind it, otherwise keep the byte. [skip] bytes of a match are still
    to be dropped. *)
Fixpoint sub_from (skip : nat) (text : bytes) : bytes :=
  match text with
  | [] => []
  | c :: rest =>
      match skip with
      | S n => sub_from n rest
      | O =>
          match match_len text with
          | Some n => sub_from (Nat.pred n) rest
          | None => c :: sub_from 0 rest
          end
      end
  end.

Definition pat_sub (text : bytes) : bytes := sub_from 0 text.

(** The [while True] loop; [None] when the fuel runs out first. *)
Fixpoint sanitize_loop (fuel : nat) (text : bytes) : option bytes :=
  match fuel with
  | O => None
  | S fuel' =>
      let new_text := pat_sub text in
      if decide (new_text = text) then Some text
      else sanitize_loop fuel' new_text
  end.

(** One pass per byte is more than the loop ever needs. *)
Definition sanitize_for_bracketed_paste (text : bytes) : option bytes :=
  sanitize_loop (S (length text)) text.

(** [text] holds an end-of-paste sequence somewhere. *)
Definition has_terminator (text : bytes) : Prop :=
  exists l1 l2, text = l1 ++ end_esc ++ l2 \/ text = l1 ++ end_csi ++ l2.

Lemma starts_with_spec pat text :
  starts_with pat text = true <-> exists rest, text = pat ++ rest.
Proof.
  revert text. induction pat as [|p pat IH]; intros text; cbn.
  - split; [eauto | done].
  - destruct text as [|c text]; [split; [done | by intros [? ?]] |].
    rewrite andb_true_iff, N.eqb_eq, IH. split.
    + intros [-> [rest ->]]. by exists rest.
    + intros [rest [= -> ->]]. eauto.
Qed.

Lemma match_len_Some text n :
  match_len text = Some n ->
  exists pat rest, (pat = end_esc \/ pat = end_csi) /\ n = length pat /\ text = pat ++ rest.
Proof.
  unfold match_len.
  destruct (starts_with end_esc text) eqn:H1;
    [| destruct (starts_with end_csi text) eqn:H2; [| done]];
    intros [= <-].
  - apply starts_with_spec in H1 as [rest ->]. exists end_esc, rest. auto.
  - apply starts_with_spec in H2 as [rest ->]. exists end_csi, rest. auto.
Qed.

Lemma match_len_None text :
  match_len text = None ->
  forall pat rest, pat = end_esc \/ pat = end_csi -> text <> pat ++ rest.
Proof.
  unfold match_len.
  destruct (starts_with end_esc text) eqn:H1; [done |].
  destruct (starts_with end_csi text) eqn:H2; [done |].
  intros _ pat rest [-> | ->] ->.
  - assert (starts_with end_esc (end_esc ++ rest) = true) by (apply starts_with_spec; eauto).
    congruence.
  - assert (starts_with end_csi (end_csi ++ rest) = true) by (apply starts_with_spec; eauto).
    congruence.
Qed.

Lemma sub_from_drop skip text : sub_from skip text = pat_sub (drop skip text).
Proof.
  revert text. induction skip as [|n IH]; intros text; [done |].
  destruct text as [|c rest]; [done | apply IH].
Qed.

(** One pass only deletes. *)
Lemma sub_from_sublist skip text : sub_from skip text `sublist_of` text.
Proof.
  revert skip. induction text as [|c rest IH]; intros skip; cbn; [done |].
  destruct skip as [|n]; [| by apply sublist_cons].
  destruct (match_len (c :: rest)); [by apply sublist_cons | by apply sublist_skip].
Qed.

Lemma pat_sub_length text : (length (pat_sub text) <= length text)%nat.
Proof. apply sublist_length, sub_from_sublist. Qed.

(** A pass that finds a match makes the text shorter. *)
Lemma pat_sub_shorter text :
  has_terminator text -> (length (pat_sub text) < length text)%nat.
Proof.
  intros (l1 & l2 & H). revert text H.
  induction l1 as [|c l1 IH]; intros text H.
  - assert (Hm : exists n, match_len text = Some n /\ (0 < n)%nat).
    { unfold match_len. destruct H as [-> | ->].
      - replace (starts_with end_esc ([] ++ end_esc ++ l2)) with true; [cbn; eauto with lia |].
        symmetry. apply starts_with_spec. eauto.
      - destruct (starts_with end_esc ([] ++ end_csi ++ l2)); cbn; [eauto with lia |].
        replace (starts_with end_csi (end_csi ++ l2)) with true; [cbn; eauto with lia |].
        symmetry. apply starts_with_spec. eauto. }
    destruct Hm as (n & Hm & Hn).
    destruct text as [|c rest]; [by destruct H |].
    unfold pat_sub. cbn [sub_from]. rewrite Hm.
    pose proof (sublist_length _ _ (sub_from_sublist (Nat.pred n) rest)). cbn. lia.
  - destruct text as [|c' rest]; [by destruct H |].
    assert (Hrest : rest = l1 ++ end_esc ++ l2 \/ rest = l1 ++ end_csi ++ l2).
    { destruct H as [[= _ ->] | [= _ ->]]; auto. }
    unfold pat_sub. cbn [sub_from].
    destruct (match_len (c' :: rest)) as [n|].
    + pose proof (sublist_length _ _ (sub_from_sublist (Nat.pred n) rest)). cbn. lia.
    + specialize (IH rest Hrest). unfold pat_sub in IH. cbn. lia.
Qed.

(** A pass that finds no match changes nothing. *)
Lemma pat_sub_clean text : ~ has_terminator text -> pat_sub text = text.
Proof.
  induction text as [|c rest IH]; intros Hclean; [done |].
  unfold pat_sub. cbn [sub_from].
  destruct (match_len (c :: rest)) as [n|] eqn:Hm.
  - apply match_len_Some in Hm as (pat & rest' & Hpat & _ & Heq).
    destruct Hclean. exists [], rest'. cbn. destruct Hpat as [-> | ->]; auto.
  - f_equal. apply IH. intros (l1 & l2 & H). apply Hclean.
    exists (c :: l1), l2. destruct H as [-> | ->]; auto.
Qed.

(** A pass that changes the text has found a match. *)
Lemma pat_sub_changed text : pat_sub text <> text -> has_terminator text.
Proof.
  induction text as [|c rest IH]; intros Hne; [done |].
  unfold pat_sub in Hne. cbn [sub_from] in Hne.
  destruct (match_len (c :: rest)) as [n|] eqn:Hm.
  - apply match_len_Some in Hm as (pat & rest' & Hpat & _ & Heq).
    exists [], rest'. cbn. destruct Hpat as [-> | ->]; auto.
  - destruct IH as (l1 & l2 & H); [unfold pat_sub; congruence |].
    exists (c :: l1), l2. destruct H as [-> | ->]; auto.
Qed.

Lemma pat_sub_fixed text : pat_sub text = text <-> ~ has_terminator text.
Proof.
  split; [| apply pat_sub_clean].
  intros Heq Hterm. apply pat_sub_shorter in Hterm. rewrite Heq in Hterm. lia.
Qed.

Lemma sanitize_loop_spec fuel text :
  (length text < fuel)%nat ->
  exists out,
    sanitize_loop fuel text = Some out
    /\ ~ has_terminator out
    /\ out `sublist_of` text.
Proof.
  revert text. induction fuel as [|fuel IH]; intros text Hfuel; [lia |].
  cbn [sanitize_loop]. destruct (decide (pat_sub text = text)) as [Heq | Hne].
  - exists text. by rewrite <- pat_sub_fixed.
  - apply pat_sub_changed, pat_sub_shorter in Hne as Hterm.
    destruct (IH (pat_sub text)) as (out & Hout & Hclean & Hsub); [lia |].
    exists out. split; [done |]. split; [done |].
    etrans; [exact Hsub | apply sub_from_sublist].
Qed.

Lemma sanitize_loop_more_fuel fuel fuel' text out :
  sanitize_loop fuel text = Some out -> (fuel <= fuel')%nat ->
  sanitize_loop fuel' text = Some out.
Proof.
  revert fuel' text. induction fuel as [|fuel IH]; intros fuel' text; [done |].
  destruct fuel' as [|fuel']; [lia |]. cbn [sanitize_loop].
  destruct (decide (pat_sub text = text)); [done |].
  intros H Hle. apply IH; [done | lia].
Qed.

(** X1: the loop ends for every input, with any fuel above the length
    of the text giving the same result; the result holds neither spelling
    of the end-of-paste sequence anywhere, and it is the input with bytes
    deleted, nothing added or reordered. *)
Theorem sanitize_for_bracketed_paste_clean (text : bytes) :
  exists out : bytes,
    sanitize_for_bracketed_paste text = Some out
    /\ (forall fuel, (length text < fuel)%nat -> sanitize_loop fuel text = Some out)
    /\ ~ has_terminator out
    /\ out `sublist_of` text.
Proof.
  destruct (sanitize_loop_spec (S (length text)) text) as (out & Hout & Hclean & Hsub);
    [lia |].
  exists out. repeat split; try done.
  intros fuel Hfuel. eapply sanitize_loop_more_fuel; [exact Hout | lia].
Qed.

(** X2: a text is returned as it is exactly when it holds no
    end-of-paste sequence; then a single pass is made. *)
Theorem sanitize_for_bracketed_paste_unchanged (text : bytes) :
  sanitize_for_bracketed_paste text = Some text <-> ~ has_terminator text.
Proof.
  unfold sanitize_for_bracketed_paste. cbn [sanitize_loop]. split.
  - intros H. destruct (decide (pat_sub text = text)) as [Heq | Hne];
      [by apply pat_sub_fixed |].
    apply pat_sub_changed, pat_sub_shorter in Hne as Hshort.
    destruct (sanitize_loop_spec (length text) (pat_sub text)) as (out & Hout & _ & Hsub);
      [done |].
    rewrite Hout in H. injection H as ->.
    apply sublist_length in Hsub. lia.
  - intros Hclean. by rewrite decide_True by by apply pat_sub_clean.
Qed.

(** Why the source loops: deleting one sequence can join the bytes around
    it into a new one. *)
Example nested_terminator :
  let text := [27; 91; 50; 48] ++ end_esc ++ [49; 126] in
  pat_sub text = end_esc /\ sanitize_for_bracketed_paste text = Some [].
Proof. by vm_compute. Qed.

End Paste.

(** ** [sanitize_control_codes] and [sanitize_title] *)

Module Sanitize.

Local Open Scope N_scope.
Local Open Scope list_scope.

(** Text is a list of code points. *)
Abbreviation ustr := (list N).

(** The class [[\x00-\x09\x0b-\x1f\x7f\x80-\x9f]] of [control_codes_pat]. *)
Definition is_control (c : N) : bool :=
  (c <=? 0x09) || ((0x0b <=? c) && (c <=? 0x1f)) || (c =? 0x7f)
  || ((0x80 <=? c) && (c <=? 0x9f)).

(** [control_codes_pat().sub(replace_with, text)]. [re.sub] expands
    backslash escapes in the replacement; that expansion is not modelled,
    and [None] stands for a replacement that holds a backslash. *)
Definition sanitize_control_codes (text replace_with : ustr) : option ustr :=
  if bool_decide (0x5c ∈ replace_with) then None
  else Some (flat_map (fun c => if is_control c then replace_with else [c]) text).

(** The class [[\0-\x19\x80-\x9f]] that [sanitize_title] deletes. *)
Definition is_title_junk (c : N) : bool :=
  (c <=? 0x19) || ((0x80 <=? c) && (c <=? 0x9f)).

(** [\s] on text: the characters for which [str.isspace] holds. *)
Definition is_space (c : N) : bool :=
  ((0x09 <=? c) && (c <=? 0x0d)) || ((0x1c <=? c) && (c <=? 0x20))
  || (c =? 0x85) || (c =? 0xa0) || (c =? 0x1680)
  || ((0x2000 <=? c) && (c <=? 0x200a))
  || (c =? 0x2028) || (c =? 0x2029) || (c =? 0x202f) || (c =? 0x205f) || (c =? 0x3000).

(** [re.sub(r'\s+', ' ', s)]: every maximal run of whitespace becomes one
    space; [in_run] says that the character before was whitespace. *)
Fixpoint collapse (in_run : bool) (s : ustr) : ustr :=
  match s with
  | [] => []
  | c :: rest =>
      if is_space c then
        if in_run then collapse true rest else 0x20 :: collapse true rest
      else c :: collapse false rest
  end.

Definition sanitize_title (x : ustr) : ustr :=
  collapse false (filter (fun c => is_title_junk c = false) x).

(** No two neighbours of [s] are both whitespace. *)
Definition no_space_run (s : ustr) : Prop :=
  forall l1 a b l2, s = l1 ++ a :: b :: l2 -> ~ (is_space a = true /\ is_space b = true).

Lemma flat_map_id_clean (f : N -> ustr) (P : N -> bool) text :
  (forall c, P c = false -> f c = [c]) ->
  Forall (fun c => P c = false) text -> flat_map f text = text.
Proof.
  intros Hf. induction 1 as [|c text Hc _ IH]; cbn; [done |].
  by rewrite (Hf c Hc), IH.
Qed.

(** X3: with a replacement that holds no backslash and no control code,
    the result holds no control code; a text without control codes is
    returned as it is; with the default empty replacement the result is
    the text with its control codes deleted; and sanitizing the result
    again changes nothing. *)
Theorem sanitize_control_codes_clean (text replace_with : ustr) :
  0x5c ∉ replace_with ->
  Forall (fun c => is_control c = false) replace_with ->
  exists out : ustr,
    sanitize_control_codes text replace_with = Some out
    /\ Forall (fun c => is_control c = false) out
    /\ (Forall (fun c => is_control c = false) text -> out = text)
    /\ (replace_with = [] -> out = filter (fun c => is_control c = false) text)
    /\ sanitize_control_codes out replace_with = Some out.
Proof.
  intros Hbs Hrepl. unfold sanitize_control_codes.
  rewrite bool_decide_eq_false_2 by done.
  set (f := fun c => if is_control c then replace_with else [c]).
  assert (Hout : Forall (fun c => is_control c = false) (flat_map f text)).
  { induction text as [|c text IH]; cbn; [done |].
    apply Forall_app. split; [| done].
    unfold f. destruct (is_control c) eqn:Hc; [done | by constructor]. }
  assert (Hid : forall t, Forall (fun c => is_control c = false) t -> flat_map f t = t).
  { intros t. apply flat_map_id_clean. intros c Hc. unfold f. by rewrite Hc. }
  exists (flat_map f text). repeat split; try done.
  - apply Hid.
  - intros ->. clear. induction text as [|c text IH]; [done |].
    cbn [flat_map]. rewrite IH. unfold f.
    destruct (is_control c) eqn:Hc.
    + rewrite filter_cons_False; [done | congruence].
    + by rewrite filter_cons_True.
  - by rewrite Hid.
Qed.

Lemma sanitize_control_codes_clean_witness :
  exists out : ustr,
    sanitize_control_codes [0x61; 0x1b; 0x0a; 0x62; 0x9b] [0x3f] = Some out
    /\ Forall (fun c => is_control c = false) out.
Proof.
  destruct (sanitize_control_codes_clean [0x61; 0x1b; 0x0a; 0x62; 0x9b] [0x3f])
    as (out & H1 & H2 & _).
  - apply (bool_decide_unpack _). by vm_compute.
  - repeat constructor.
  - by exists out.
Defined.

Lemma collapse_elem b s c :
  c ∈ collapse b s -> c = 0x20 \/ (c ∈ s /\ is_space c = false).
Proof.
  revert b. induction s as [|d rest IH]; intros b; cbn; [by intros ?%elem_of_nil |].
  destruct (is_space d) eqn:Hd.
  - destruct b.
    + intros [? | [? ?]]%IH; [by left | right; split; [by right | done]].
    + intros [-> | [? | [? ?]]%IH]%elem_of_cons;
        [by left | by left | right; split; [by right | done]].
  - intros [-> | [? | [? ?]]%IH]%elem_of_cons;
      [right; split; [by left | done] | by left | right; split; [by right | done]].
Qed.

(** After whitespace the collapsed text does not start with whitespace. *)
Lemma collapse_true_head s c rest :
  collapse true s = c :: rest -> is_space c = false.
Proof.
  induction s as [|d s IH]; cbn; [done |].
  destruct (is_space d) eqn:Hd; [exact IH | by intros [= <- _]].
Qed.

Lemma collapse_no_space_run b s : no_space_run (collapse b s).
Proof.
  revert b. induction s as [|d s IH]; intros b l1 a c l2; cbn.
  - by destruct l1.
  - destruct (is_space d) eqn:Hd; [destruct b |].
    + apply IH.
    + destruct l1 as [|x l1]; cbn.
      * intros [= <- Heq]. apply collapse_true_head in Heq.
        intros [_ ?]. congruence.
      * intros [= _ Heq]. by apply (IH true) in Heq.
    + destruct l1 as [|x l1]; cbn.
      * intros [= <- _]. intros [? _]. congruence.
      * intros [= _ Heq]. by apply (IH false) in Heq.
Qed.

(** A text whose only whitespace is single spaces is left alone. *)
Lemma collapse_fixed s :
  Forall (fun c => is_space c = true -> c = 0x20) s -> no_space_run s ->
  collapse false s = s
  /\ (forall c rest, s = c :: rest -> is_space c = false -> collapse true s = s).
Proof.
  induction s as [|d s IH]; intros Hsp Hrun; [done |].
  apply Forall_cons in Hsp as [Hd Hsp].
  assert (Hrun' : no_space_run s).
  { intros l1 a b l2 ->. by apply (Hrun (d :: l1) a b l2). }
  destruct (IH Hsp Hrun') as [IH1 IH2]. cbn.
  destruct (is_space d) eqn:Hds.
  - split; [| by intros c rest [= <- _] ?; congruence].
    rewrite (Hd eq_refl). f_equal.
    destruct s as [|e s']; [done |].
    apply (IH2 e s' eq_refl).
    destruct (is_space e) eqn:He; [| done].
    destruct (Hrun [] d e s' eq_refl). done.
  - split; [by rewrite IH1 | intros; by rewrite IH1].
Qed.

(** X4: a sanitized title holds no character of the deleted class, its
    only whitespace characters are spaces, no two of them are neighbours,
    and sanitizing it again changes nothing. *)
Theorem sanitize_title_spec (x : ustr) :
  let out := sanitize_title x in
  Forall (fun c => is_title_junk c = false) out
  /\ Forall (fun c => is_space c = true -> c = 0x20) out
  /\ no_space_run out
  /\ sanitize_title out = out.
Proof.
  intros out.
  assert (Hjunk : Forall (fun c => is_title_junk c = false) out).
  { apply Forall_forall. intros c [-> | [Hc _]]%collapse_elem; [done |].
    by apply list_elem_of_filter in Hc as [? _]. }
  assert (Hsp : Forall (fun c => is_space c = true -> c = 0x20) out).
  { apply Forall_forall. intros c [-> | [_ Hc]]%collapse_elem; [done | congruence]. }
  assert (Hrun : no_space_run out) by apply collapse_no_space_run.
  repeat split; try done.
  unfold sanitize_title at 1.
  replace (filter (fun c => is_title_junk c = false) out) with out.
  - by apply collapse_fixed.
  - symmetry. clear -Hjunk. induction Hjunk as [|c l Hc _ IH]; [done |].
    rewrite filter_cons_True by done. by rewrite IH.
Qed.

End Sanitize.

(** ** [base64_encode] *)

Module Base64.

Local Open Scope Z_scope.

(** [string.ascii_uppercase + string.ascii_lowercase + string.digits + '+/'] *)
Definition default_chars : string :=
  "ABCDEFGHIJKLMNOPQRSTUVWXYZabcdefghijklmnopqrstuvwxyz0123456789+/".

Inductive outcome :=
  | Returns (ans : string)
  | IndexError.              (* chars[remainder] out of range *)

(** The [while True] loop: [divmod(integer, 64)] floors, the character of
    the remainder goes in front of [ans], and the loop ends when the
    quotient is zero. [None]: the fuel ran out first. *)
Fixpoint base64_encode_loop (fuel : nat) (integer : Z) (chars ans : string)
  : option outcome :=
  match fuel with
  | O => None
  | S fuel' =>
      let quotient := integer / 64 in
      let remainder := integer mod 64 in
      match String.get (Z.to_nat remainder) chars with
      | None => Some IndexError
      | Some ch =>
          let ans := String ch ans in
          if quotient =? 0 then Some (Returns ans)
          else base64_encode_loop fuel' quotient chars ans
      end
  end.

Definition base64_encode (fuel : nat) (integer : Z) (chars : string) : option outcome :=
  base64_encode_loop fuel integer chars "".

(** Reading a text back: the position of a character in the alphabet, and
    the number a text spells in base 64, most significant digit first. *)
Fixpoint index_of (ch : ascii) (chars : string) : option Z :=
  match chars with
  | EmptyString => None
  | String c rest =>
      if Ascii.eqb c ch then Some 0 else Z.succ <$> index_of ch rest
  end.

Fixpoint base64_value (acc : Z) (s : string) : option Z :=
  match s with
  | EmptyString => Some acc
  | String ch rest =>
      match index_of ch default_chars with
      | Some d => base64_value (acc * 64 + d) rest
      | None => None
      end
  end.

(** The characters of the default alphabet sit at their own index. *)
Lemma default_chars_index (d : Z) :
  0 <= d < 64 ->
  exists ch, String.get (Z.to_nat d) default_chars = Some ch
             /\ index_of ch default_chars = Some d.
Proof.
  intros Hd.
  assert (Hall : forallb (fun n =>
            match String.get n default_chars with
            | Some ch => bool_decide (index_of ch default_chars = Some (Z.of_nat n))
            | None => false
            end) (seq 0 64) = true) by (by vm_compute).
  rewrite forallb_forall in Hall.
  assert (Hin : In (Z.to_nat d) (seq 0 64)) by (apply in_seq; lia).
  apply Hall in Hin.
  destruct (String.get (Z.to_nat d) default_chars) as [ch|] eqn:Hget; [| done].
  exists ch. split; [done |].
  apply bool_decide_eq_true in Hin. by rewrite Z2Nat.id in Hin by lia.
Qed.

(** What the loop puts in front of [ans] spells the number it was given,
    in [m] digits. *)
Lemma base64_encode_loop_value fuel n ans :
  0 <= n -> (Z.to_nat n < fuel)%nat ->
  exists out m,
    base64_encode_loop fuel n default_chars ans = Some (Returns out)
    /\ 0 < m
    /\ (forall acc, base64_value acc out = base64_value (acc * 64 ^ m + n) ans)
    /\ (n <> 0 -> String.get 0 out <> Some "A"%char).
Proof.
  revert n ans. induction fuel as [|fuel IH]; intros n ans Hn Hfuel; [lia |].
  cbn [base64_encode_loop].
  pose proof (Z.mod_pos_bound n 64 ltac:(lia)) as Hr.
  pose proof (Z.div_mod n 64 ltac:(lia)) as Hdm.
  destruct (default_chars_index (n mod 64) Hr) as (ch & Hget & Hidx).
  rewrite Hget. destruct (Z.eqb_spec (n / 64) 0) as [Hq | Hq].
  - exists (String ch ans), 1. split; [done |]. split; [lia |]. split.
    + intros acc. cbn [base64_value]. rewrite Hidx. f_equal. lia.
    + intros Hn0. cbn. intros [= ->].
      assert (HA : index_of "A" default_chars = Some 0) by done.
      rewrite HA in Hidx. injection Hidx as Hz. lia.
  - assert (0 < n / 64) by (pose proof (Z.div_pos n 64); lia).
    destruct (IH (n / 64) (String ch ans)) as (out & m & Hout & Hm & Hval & Hhead);
      [lia | nia |].
    exists out, (m + 1). split; [done |]. split; [lia |]. split.
    + intros acc. rewrite Hval. cbn [base64_value]. rewrite Hidx. f_equal.
      rewrite Z.pow_add_r by lia. lia.
    + intros _. apply Hhead. lia.
Qed.

(** X5: for every integer [n >= 0] and the default alphabet the loop ends
    (any fuel above [n] is enough) and returns a text that spells [n] in
    base 64, most significant digit first, with no leading zero digit
    ["A"] unless [n = 0]. *)
Theorem base64_encode_roundtrip (n : Z) (fuel : nat) :
  0 <= n -> (Z.to_nat n < fuel)%nat ->
  exists out : string,
    base64_encode fuel n default_chars = Some (Returns out)
    /\ base64_value 0 out = Some n
    /\ out <> ""
    /\ (n <> 0 -> String.get 0 out <> Some "A"%char).
Proof.
  intros Hn Hfuel.
  destruct (base64_encode_loop_value fuel n "" Hn Hfuel) as (out & m & Hout & Hm & Hval & Hhead).
  exists out. split; [done |]. split; [| split; [| done]].
  - rewrite Hval. cbn [base64_value]. f_equal; lia.
  - intros ->. specialize (Hval 1). cbn in Hval. injection Hval as Hv.
    assert (64 ^ 1 <= 64 ^ m) by (apply Z.pow_le_mono_r; lia). lia.
Qed.

Lemma base64_encode_roundtrip_witness :
  exists out : string,
    base64_encode 1001 1000 default_chars = Some (Returns out)
    /\ base64_value 0 out = Some 1000.
Proof.
  destruct (base64_encode_roundtrip 1000 1001) as (out & H1 & H2 & _);
    [lia | by vm_compute |].
  by exists out.
Defined.

(** X6: for a negative integer the loop never returns, with any alphabet:
    the floored quotient stays negative, so the test [integer == 0] never
    holds; the call either spins for ever or, with an alphabet shorter
    than the remainder, raises [IndexError]. *)
Theorem base64_encode_negative (n : Z) (fuel : nat) (chars ans : string) :
  n < 0 ->
  base64_encode_loop fuel n chars ans = None
  \/ base64_encode_loop fuel n chars ans = Some IndexError.
Proof.
  revert n ans. induction fuel as [|fuel IH]; intros n ans Hn; [by left |].
  cbn [base64_encode_loop].
  destruct (String.get (Z.to_nat (n mod 64)) chars) as [ch|]; [| by right].
  assert (n / 64 < 0) by (apply Z.div_lt_upper_bound; lia).
  destruct (Z.eqb_spec (n / 64) 0); [lia |].
  by apply IH.
Qed.

Lemma base64_encode_negative_witness :
  base64_encode_loop 50 (-1) default_chars "" = None.
Proof.
  destruct (base64_encode_negative (-1) 50 default_chars "") as [H | H];
    [lia | exact H | by vm_compute in H].
Defined.

End Base64.

(** ** [parse_address_spec] *)

Module Address.

Inductive family := AF_UNIX | AF_INET | AF_INET6.

(** The second component: a socket address text, or [(host, port)]. *)
Inductive address :=
  | Path (addr : string)
  | HostPort (host : string) (port : Z).

Inductive outcome (A : Type) : Type :=
  | Returns (a : A)
  | ValueError.
Arguments Returns {A} a.
Arguments ValueError {A}.

Fixpoint contains (sep : ascii) (s : string) : bool :=
  match s with
  | EmptyString => false
  | String c rest => Ascii.eqb c sep || contains sep rest
  end.

(** [s.split(sep, 1)] when it has two parts: the text before the first
    [sep] and the text after it. *)
Fixpoint split_first (sep : ascii) (s : string) : option (string * string) :=
  match s with
  | EmptyString => None
  | String c rest =>
      if Ascii.eqb c sep then Some (EmptyString, rest)
      else
        match split_first sep rest with
        | Some (before, after) => Some (String c before, after)
        | None => None
        end
  end.

(** [s.rsplit(sep, 1)] when it has two parts: the text before the last
    [sep] and the text after it. *)
Fixpoint rsplit_last (sep : ascii) (s : string) : option (string * string) :=
  match s with
  | EmptyString => None
  | String c rest =>
      match rsplit_last sep rest with
      | Some (before, after) => Some (String c before, after)
      | None => if Ascii.eqb c sep then Some (EmptyString, rest) else None
      end
  end.

Section Parse.

(** [int(port)]: the number, or [None] for the [ValueError]. *)
Context (py_int : string -> option Z).

(** Unpacking a [split] that has one part only raises [ValueError], as
    does [int] and the last branch. *)
Definition parse_address_spec (spec : string)
  : outcome (family * address * option string) :=
  match split_first ":" spec with
  | None => ValueError
  | Some (protocol, rest) =>
      if String.eqb protocol "unix" then
        match rest with
        | String "@" (String c name) =>
            Returns (AF_UNIX, Path (String "000" (String c name)), None)
        | _ => Returns (AF_UNIX, Path rest, Some rest)
        end
      else if bool_decide (protocol ∈ ["tcp"; "tcp6"]) then
        let fam := if String.eqb protocol "tcp" then AF_INET else AF_INET6 in
        match rsplit_last ":" rest with
        | None => ValueError
        | Some (host, port) =>
            match py_int port with
            | Some p => Returns (fam, HostPort host p, None)
            | None => ValueError
            end
        end
      else ValueError
  end.

Lemma append_cons c (a b : string) : (String c a ++ b)%string = String c (a ++ b)%string.
Proof. done. Qed.

Lemma split_first_app sep p rest :
  contains sep p = false ->
  split_first sep (p ++ String sep rest) = Some (p, rest).
Proof.
  induction p as [|c p IH]; intros Hp.
  - change (split_first sep (String sep rest) = Some (EmptyString, rest)).
    cbn. by rewrite Ascii.eqb_refl.
  - cbn in Hp. apply orb_false_iff in Hp as [Hc Hp].
    rewrite append_cons. cbn. by rewrite Hc, (IH Hp).
Qed.

Lemma split_first_Some sep s p rest :
  split_first sep s = Some (p, rest) ->
  s = (p ++ String sep rest)%string /\ contains sep p = false.
Proof.
  revert p. induction s as [|c s IH]; intros p; cbn; [done |].
  destruct (Ascii.eqb_spec c sep) as [-> | Hc].
  - by intros [= <- <-].
  - destruct (split_first sep s) as [[b a]|]; [| done].
    intros [= <- <-]. destruct (IH b eq_refl) as [-> Hb].
    split; [done |]. cbn. rewrite Hb.
    by destruct (Ascii.eqb_spec c sep).
Qed.

Lemma rsplit_last_None sep s : contains sep s = false -> rsplit_last sep s = None.
Proof.
  induction s as [|c s IH]; cbn; [done |].
  intros [Hc Hs]%orb_false_iff. by rewrite (IH Hs), Hc.
Qed.

Lemma rsplit_last_app sep h t :
  contains sep t = false ->
  rsplit_last sep (h ++ String sep t) = Some (h, t).
Proof.
  intros Ht. induction h as [|c h IH].
  - change (rsplit_last sep (String sep t) = Some (EmptyString, t)).
    cbn. by rewrite (rsplit_last_None _ _ Ht), Ascii.eqb_refl.
  - rewrite append_cons. cbn. by rewrite IH.
Qed.

Lemma rsplit_last_Some sep s h t :
  rsplit_last sep s = Some (h, t) ->
  s = (h ++ String sep t)%string /\ contains sep t = false.
Proof.
  revert h. induction s as [|c s IH]; intros h; cbn; [done |].
  destruct (rsplit_last sep s) as [[b a]|] eqn:Hs.
  - intros [= <- <-]. by destruct (IH b eq_refl) as [-> Ha].
  - destruct (Ascii.eqb_spec c sep) as [-> | Hc]; [| done].
    intros [= <- <-]. split; [done |].
    clear IH. induction s as [|d s IH']; [done |].
    cbn in Hs |- *. destruct (rsplit_last sep s) as [[? ?]|]; [done |].
    destruct (Ascii.eqb d sep); [done |]. by apply IH'.
Qed.

(** X7: a [unix:] address. [unix:@name] with a non-empty name gives the
    abstract address, a NUL byte followed by the name, which is the
    address form [SingleInstance] binds, and no socket path; every other
    text after [unix:], the lone [@] included, is both the address and
    the socket path, whatever colons it holds. *)
Theorem parse_address_spec_unix (rest : string) :
  (forall name, name <> "" -> rest = String "@" name ->
     parse_address_spec ("unix:" ++ rest)
     = Returns (AF_UNIX, Path (abstract_addr name), None)
     /\ is_abstract (abstract_addr name) = true)
  /\ ((rest = "@" \/ forall name, rest <> String "@" name) ->
      parse_address_spec ("unix:" ++ rest) = Returns (AF_UNIX, Path rest, Some rest)).
Proof.
  assert (Hsplit : split_first ":" ("unix:" ++ rest) = Some ("unix", rest)).
  { apply (split_first_app ":" "unix" rest). done. }
  unfold parse_address_spec. rewrite Hsplit. cbn [String.eqb Ascii.eqb Bool.eqb].
  split.
  - intros name Hname ->. by destruct name.
  - intros [-> | Hrest]; [done |].
    destruct rest as [|c rest]; [done |].
    destruct (Ascii.eqb_spec c "@") as [-> | Hc].
    + by destruct (Hrest rest).
    + destruct c as [[] [] [] [] [] [] [] []]; try done.
      all: destruct rest; done.
Qed.

(** X8: what is accepted. A call that returns had a spec of the form
    [protocol:rest] with no colon in the protocol, which was [unix], [tcp]
    or [tcp6], and the family is decided by the protocol alone; for [tcp]
    and [tcp6] the rest was [host:port], split at its last colon, with a
    port that [int] accepts. Every other spec raises [ValueError]. *)
Theorem parse_address_spec_accepts (spec : string) fam addr sp :
  parse_address_spec spec = Returns (fam, addr, sp) ->
  exists protocol rest,
    spec = (protocol ++ String ":" rest)%string
    /\ contains ":" protocol = false
    /\ ((protocol = "unix" /\ fam = AF_UNIX)
        \/ ((protocol = "tcp" /\ fam = AF_INET \/ protocol = "tcp6" /\ fam = AF_INET6)
            /\ sp = None
            /\ exists host port p,
                 rest = (host ++ String ":" port)%string
                 /\ contains ":" port = false
                 /\ py_int port = Some p
                 /\ addr = HostPort host p)).
Proof.
  unfold parse_address_spec.
  destruct (split_first ":" spec) as [[protocol rest]|] eqn:Hsplit; [| done].
  apply split_first_Some in Hsplit as [-> Hproto].
  intros H. exists protocol, rest. split; [done |]. split; [done |].
  destruct (String.eqb_spec protocol "unix") as [-> | Hunix].
  - left. split; [done |]. repeat case_match; congruence.
  - right. case_bool_decide as Hin; [| done].
    destruct (rsplit_last ":" rest) as [[host port]|] eqn:Hr; [| done].
    apply rsplit_last_Some in Hr as [-> Hport].
    destruct (py_int port) as [p|] eqn:Hp; [| done].
    injection H as <- <- <-.
    split; [| split; [done | by exists host, port, p]].
    apply list_elem_of_In in Hin. cbn in Hin.
    destruct Hin as [<- | [<- | []]]; auto.
Qed.

(** X9: a [tcp] spec is split at its last colon, so a host that holds
    colons itself, as an IPv6 literal does, is kept whole. *)
Theorem parse_address_spec_tcp (host port : string) (p : Z) :
  contains ":" port = false ->
  py_int port = Some p ->
  parse_address_spec ("tcp:" ++ host ++ String ":" port)
  = Returns (AF_INET, HostPort host p, None)
  /\ parse_address_spec ("tcp6:" ++ host ++ String ":" port)
     = Returns (AF_INET6, HostPort host p, None).
Proof.
  intros Hport Hp. unfold parse_address_spec.
  assert (H4 : split_first ":" ("tcp:" ++ host ++ String ":" port)
               = Some ("tcp", (host ++ String ":" port)%string)).
  { by apply (split_first_app ":" "tcp"). }
  assert (H6 : split_first ":" ("tcp6:" ++ host ++ String ":" port)
               = Some ("tcp6", (host ++ String ":" port)%string)).
  { by apply (split_first_app ":" "tcp6"). }
  rewrite H4, H6.
  cbn [String.eqb Ascii.eqb Bool.eqb]. eval_decide.
  rewrite (rsplit_last_app ":" host port Hport), Hp.
  done.
Qed.

End Parse.

(** A reader of plain decimal digits, narrower than [int], to run the
    parser on examples. *)
Fixpoint decimal_from (acc : Z) (s : string) : option Z :=
  match s with
  | EmptyString => Some acc
  | String c rest =>
      let n := Z.of_nat (nat_of_ascii c) in
      if ((48 <=? n) && (n <=? 57))%Z then decimal_from (acc * 10 + (n - 48)) rest
      else None
  end.

Definition digits_only (s : string) : option Z :=
  match s with
  | EmptyString => None
  | _ => decimal_from 0 s
  end.

Lemma parse_address_spec_unix_witness :
  parse_address_spec digits_only "unix:@mykitty"
  = Returns (AF_UNIX, Path (abstract_addr "mykitty"), None).
Proof.
  destruct (parse_address_spec_unix digits_only "@mykitty") as [H _].
  by destruct (H "mykitty") as [H1 _].
Defined.

Lemma parse_address_spec_accepts_witness :
  exists protocol rest,
    "tcp:[::1]:5000" = (protocol ++ String ":" rest)%string
    /\ contains ":" protocol = false.
Proof.
  destruct (parse_address_spec_accepts digits_only "tcp:[::1]:5000"
              AF_INET (HostPort "[::1]" 5000) None) as (protocol & rest & H1 & H2 & _).
  - by vm_compute.
  - by exists protocol, rest.
Defined.

Lemma parse_address_spec_tcp_witness :
  parse_address_spec digits_only "tcp:[::1]:5000"
  = Returns (AF_INET, HostPort "[::1]" 5000, None).
Proof.
  destruct (parse_address_spec_tcp digits_only "[::1]" "5000" 5000) as [H _];
    [by vm_compute .. | exact H].
Defined.

End Address.

(** ** [write_all] *)

Module WriteAll.

Local Open Scope list_scope.

(** Bytes are numbers below 256; text is a list of code points. *)
Abbreviation bytes := (list N).

(** What one [os.write(fd, mvd)] does: it takes the first [n] bytes of the
    buffer and returns [n], or raises. *)
Inductive write_answer :=
  | Wrote (n : nat)
  | WouldBlock                (* BlockingIOError *)
  | WriteFails (e : errno).   (* any other OSError *)

Inductive outcome :=
  | Returned
  | BlockingIOError
  | OSErrorRaised (e : errno)
  | UnicodeEncodeError.

Inductive data :=
  | Str (s : list N)
  | Bytes (b : bytes).

(** [str.encode('utf-8')]: strict, so a surrogate raises. *)
Definition encode_char (c : N) : option bytes :=
  (if c <? 0x80 then Some [c]
   else if c <? 0x800 then
     Some [N.lor 0xC0 (N.shiftr c 6); N.lor 0x80 (N.land c 0x3F)]
   else if c <? 0x10000 then
     if (0xD800 <=? c) && (c <=? 0xDFFF) then None
     else Some [N.lor 0xE0 (N.shiftr c 12);
                N.lor 0x80 (N.land (N.shiftr c 6) 0x3F);
                N.lor 0x80 (N.land c 0x3F)]
   else if c <? 0x110000 then
     Some [N.lor 0xF0 (N.shiftr c 18);
           N.lor 0x80 (N.land (N.shiftr c 12) 0x3F);
           N.lor 0x80 (N.land (N.shiftr c 6) 0x3F);
           N.lor 0x80 (N.land c 0x3F)]
   else None)%N.

Fixpoint encode_utf8 (s : list N) : option bytes :=
  match s with
  | [] => Some []
  | c :: rest =>
      match encode_char c, encode_utf8 rest with
      | Some b, Some bs => Some (b ++ bs)
      | _, _ => None
      end
  end.

(** The [while len(mvd) > 0] loop against a script of answers; [written]
    collects the bytes the kernel took, in order. [None]: the script ends
    while the loop still runs. *)
Fixpoint write_loop (answers : list write_answer) (mvd : bytes)
    (block_until_written : bool) (written : bytes) {struct answers}
  : option (outcome * bytes) :=
  match mvd with
  | [] => Some (Returned, written)
  | _ :: _ =>
      match answers with
      | [] => None
      | WouldBlock :: answers' =>
          if block_until_written
          then write_loop answers' mvd block_until_written written
          else Some (BlockingIOError, written)
      | WriteFails e :: _ => Some (OSErrorRaised e, written)
      | Wrote O :: _ => Some (Returned, written)
      | Wrote (S n) :: answers' =>
          write_loop answers' (drop (S n) mvd) block_until_written
            (written ++ take (S n) mvd)
      end
  end.

Definition payload (d : data) : option bytes :=
  match d with
  | Str s => encode_utf8 s
  | Bytes b => Some b
  end.

Definition write_all (answers : list write_answer) (d : data)
    (block_until_written : bool) : option (outcome * bytes) :=
  match payload d with
  | None => Some (UnicodeEncodeError, [])
  | Some b => write_loop answers b block_until_written []
  end.

(** The bytes the answers of a script take in total. *)
Fixpoint total (answers : list write_answer) : nat :=
  match answers with
  | [] => 0
  | Wrote n :: rest => n + total rest
  | _ :: rest => total rest
  end.

Lemma write_loop_spec answers mvd block written out w :
  write_loop answers mvd block written = Some (out, w) ->
  exists rest,
    w ++ rest = written ++ mvd
    /\ (out = Returned -> rest = [] \/ Wrote 0 ∈ answers)
    /\ (out = BlockingIOError -> block = false)
    /\ out <> UnicodeEncodeError.
Proof.
  revert mvd written. induction answers as [|a answers IH]; intros mvd written.
  - destruct mvd; cbn; [| done]. intros [= <- <-].
    exists []. by repeat split; auto.
  - destruct mvd as [|c mvd].
    { cbn. intros [= <- <-]. exists []. by repeat split; auto. }
    destruct a as [[|n]| |e]; cbn [write_loop].
    + intros [= <- <-]. exists (c :: mvd). repeat split; try done.
      intros _. right. by left.
    + intros H. apply IH in H as (rest & Heq & Hret & Hblk & Hne).
      exists rest. rewrite <- app_assoc, take_drop in Heq.
      repeat split; try done. intros Ho. destruct (Hret Ho); [by left |].
      right. by right.
    + destruct block.
      * intros H. apply IH in H as (rest & Heq & Hret & Hblk & Hne).
        exists rest. repeat split; try done.
        intros Ho. destruct (Hret Ho); [by left | right; by right].
      * intros [= <- <-]. by exists (c :: mvd).
    + intros [= <- <-]. by exists (c :: mvd).
Qed.

(** X10: whatever the kernel answers, the bytes it has taken when the
    call ends are a prefix of the data, in order and none twice; a normal
    return means that all of the data was written unless some write
    returned zero, which ends the loop silently; and with
    [block_until_written] a [BlockingIOError] is retried, never raised. *)
Theorem write_all_prefix (answers : list write_answer) (d : data) (block : bool)
    (b : bytes) (out : outcome) (w : bytes) :
  payload d = Some b ->
  write_all answers d block = Some (out, w) ->
  w `prefix_of` b
  /\ (out = Returned -> w = b \/ Wrote 0 ∈ answers)
  /\ (block = true -> out <> BlockingIOError).
Proof.
  intros Hd. unfold write_all. rewrite Hd. intros H.
  apply write_loop_spec in H as (rest & Heq & Hret & Hblk & _). cbn in Heq.
  split; [by exists rest |]. split.
  - intros Ho. destruct (Hret Ho) as [-> | ?]; [| by right].
    left. by rewrite app_nil_r in Heq.
  - intros -> ->. by specialize (Hblk eq_refl).
Qed.

Lemma write_all_prefix_witness :
  let b := [104; 105; 33]%N in
  write_all [WouldBlock; Wrote 2; WouldBlock; Wrote 1] (Bytes b) true = Some (Returned, b)
  /\ b `prefix_of` b.
Proof.
  intros b. split; [done |].
  by destruct (write_all_prefix [WouldBlock; Wrote 2; WouldBlock; Wrote 1]
                 (Bytes b) true b Returned b eq_refl eq_refl) as [H _].
Defined.

Lemma write_loop_complete answers mvd written :
  Forall (fun a => a = WouldBlock \/ exists n, a = Wrote (S n)) answers ->
  length mvd <= total answers ->
  write_loop answers mvd true written = Some (Returned, written ++ mvd).
Proof.
  intros Hall. revert mvd written.
  induction Hall as [|a answers Ha _ IH]; intros mvd written Hlen.
  - destruct mvd; [by rewrite app_nil_r | cbn in Hlen; lia].
  - destruct mvd as [|c mvd]; [by rewrite app_nil_r |].
    destruct Ha as [-> | [n ->]]; cbn [write_loop].
    + apply IH. exact Hlen.
    + rewrite IH.
      * by rewrite <- app_assoc, take_drop.
      * rewrite length_drop. cbn [total] in Hlen. lia.
Qed.

(** X11: when every answer is a [BlockingIOError] or a write of at least
    one byte, and the writes take at least as many bytes as the data has,
    a blocking call returns with exactly the data written, however it was
    cut into pieces. *)
Theorem write_all_complete (answers : list write_answer) (d : data) (b : bytes) :
  payload d = Some b ->
  Forall (fun a => a = WouldBlock \/ exists n, a = Wrote (S n)) answers ->
  length b <= total answers ->
  write_all answers d true = Some (Returned, b).
Proof.
  intros Hd Hall Hlen. unfold write_all. rewrite Hd.
  by rewrite write_loop_complete.
Qed.

Lemma write_all_complete_witness :
  write_all [WouldBlock; Wrote 1; Wrote 1; WouldBlock; Wrote 5] (Str [0xe9; 0x21]%N) true
  = Some (Returned, [0xc3; 0xa9; 0x21]%N).
Proof.
  apply (write_all_complete _ (Str [0xe9; 0x21]%N)).
  - by vm_compute.
  - apply Forall_cons_2; [by left |].
    apply Forall_cons_2; [right; by exists 0 |].
    apply Forall_cons_2; [right; by exists 0 |].
    apply Forall_cons_2; [by left |].
    apply Forall_cons_2; [right; by exists 4 | apply Forall_nil_2].
  - cbn. lia.
Defined.

End WriteAll.

(** ** [set_echo] and [no_echo] *)

Module Echo.

Local Open Scope Z_scope.

(** What [termios.tcgetattr] returns:
    [[iflag, oflag, cflag, lflag, ispeed, ospeed, cc]]; index 3 is
    [lflag]. *)
Record attrs := Attrs {
  iflag : Z; oflag : Z; cflag : Z; lflag : Z;
  ispeed : Z; ospeed : Z; cc : list Z
}.

(** [new[3] = v] *)
Definition set_lflag (a : attrs) (v : Z) : attrs :=
  Attrs (iflag a) (oflag a) (cflag a) v (ispeed a) (ospeed a) (cc a).

(** The terminals, by file descriptor. A descriptor that is not a
    terminal makes [tcgetattr] and [tcsetattr] raise [termios.error],
    which is [None] below. *)
Abbreviation ttys := (gmap Z attrs).

Definition tcgetattr (fd : Z) (w : ttys) : option attrs := w !! fd.

Definition tcsetattr (fd : Z) (a : attrs) (w : ttys) : option ttys :=
  match w !! fd with
  | Some _ => Some (<[fd := a]> w)
  | None => None
  end.

Section Constants.

(** [termios.ECHO] and [sys.stdin.fileno()]. *)
Context (ECHO : Z) (stdin_fileno : Z).

Definition set_echo (fd : Z) (on : bool) (w : ttys) : option ((Z * attrs) * ttys) :=
  let fd := if fd <? 0 then stdin_fileno else fd in
  old ← tcgetattr fd w;
  new ← tcgetattr fd w;
  let new :=
    set_lflag new
      (if on then Z.lor (lflag new) ECHO else Z.land (lflag new) (Z.lnot ECHO)) in
  w' ← tcsetattr fd new w;
  Some ((fd, old), w').

(** [with no_echo(fd): body]. The body returns or raises, which is its
    result [r] either way; the [finally] clause runs after it. *)
Definition no_echo {A : Type} (fd : Z) (body : ttys -> A * ttys) (w : ttys)
  : option (A * ttys) :=
  '((fd', old), w1) ← set_echo fd false w;
  let '(r, w2) := body w1 in
  w3 ← tcsetattr fd' old w2;
  Some (r, w3).

(** X12: [set_echo] returns the descriptor it used and the attributes as
    they were; afterwards every bit of [lflag] that is in [ECHO] is [on],
    every other bit of [lflag] and every other field is as before, and no
    other terminal is touched. *)
Theorem set_echo_bits (fd : Z) (on : bool) (w w' : ttys) (fd' : Z) (old : attrs) :
  set_echo fd on w = Some ((fd', old), w') ->
  fd' = (if fd <? 0 then stdin_fileno else fd)
  /\ w !! fd' = Some old
  /\ exists new,
       w' = <[fd' := new]> w
       /\ (forall i, 0 <= i ->
             Z.testbit (lflag new) i
             = if Z.testbit ECHO i then on else Z.testbit (lflag old) i)
       /\ (iflag new, oflag new, cflag new, ispeed new, ospeed new, cc new)
          = (iflag old, oflag old, cflag old, ispeed old, ospeed old, cc old).
Proof.
  unfold set_echo, tcgetattr, tcsetattr.
  set (d := if fd <? 0 then stdin_fileno else fd).
  destruct (w !! d) as [a|] eqn:Ha; [| done]. cbn.
  intros [= <- <- <-]. split; [done |]. split; [done |].
  eexists. split; [done |]. split; [| done].
  intros i Hi. cbn. destruct on.
  - rewrite Z.lor_spec. by destruct (Z.testbit (lflag a) i), (Z.testbit ECHO i).
  - rewrite Z.land_spec, Z.lnot_spec by done.
    by destruct (Z.testbit (lflag a) i), (Z.testbit ECHO i).
Qed.

(** X13: when [no_echo] ends, by return or by exception of the body, the
    terminal has exactly the attributes it had when the block was
    entered, whatever the body did to them, and the body ran with the
    [ECHO] bits cleared. *)
Theorem no_echo_restores {A : Type} (fd : Z) (body : ttys -> A * ttys)
    (w w' : ttys) (r : A) :
  no_echo fd body w = Some (r, w') ->
  let fd' := if fd <? 0 then stdin_fileno else fd in
  w' !! fd' = w !! fd'
  /\ exists during w2,
       body during = (r, w2)
       /\ (exists a, during !! fd' = Some a
             /\ forall i, 0 <= i -> Z.testbit ECHO i = true ->
                  Z.testbit (lflag a) i = false)
       /\ forall other, other <> fd' -> w' !! other = w2 !! other.
Proof.
  intros H fd'. unfold no_echo in H.
  destruct (set_echo fd false w) as [[[d old] w1]|] eqn:Hset; [| done].
  apply set_echo_bits in Hset as (-> & Hold & new & -> & Hbits & _).
  fold fd' in H, Hold, Hbits |- *. cbn in H.
  destruct (body (<[fd' := new]> w)) as [r' w2] eqn:Hbody.
  unfold tcsetattr in H. destruct (w2 !! fd') as [a2|] eqn:Ha2; [| done].
  cbn in H. injection H as <- <-.
  split; [by rewrite lookup_insert_eq |].
  exists (<[fd' := new]> w), w2. split; [done |]. split.
  - exists new. split; [by rewrite lookup_insert_eq |].
    intros i Hi He. by rewrite Hbits, He.
  - intros other Hne. by rewrite lookup_insert_ne.
Qed.

End Constants.

(** A terminal with [ICANON | ECHO | ISIG] set, as descriptor 0. *)
Definition cooked : attrs := Attrs 0x2d02 0x5 0xbf 0x8a3b 15 15 [3; 28; 127].

Lemma set_echo_bits_witness :
  exists new : attrs,
    set_echo 8 0 (-1) false {[0 := cooked]} = Some ((0, cooked), {[0 := new]})
    /\ lflag new = 0x8a33.
Proof.
  destruct (set_echo_bits 8 0 (-1) false {[0 := cooked]}
              (<[0 := set_lflag cooked 0x8a33]> {[0 := cooked]}) 0 cooked)
    as (_ & _ & new & Hw & _); [by vm_compute |].
  exists (set_lflag cooked 0x8a33). by vm_compute.
Defined.

Lemma no_echo_restores_witness :
  let body := fun w : ttys => (tt, <[0 := set_lflag cooked 0]> w) in
  exists w', no_echo 8 0 0 body {[0 := cooked]} = Some (tt, w')
             /\ w' !! 0 = Some cooked.
Proof.
  intros body.
  assert (H : no_echo 8 0 0 body {[0 := cooked]}
              = Some (tt, <[0 := cooked]> (<[0 := set_lflag cooked 0]>
                       (<[0 := set_lflag cooked 0x8a33]> {[0 := cooked]}))))
    by (by vm_compute).
  eexists. split; [exact H |].
  destruct (no_echo_restores 8 0 0 body _ _ _ H) as [Hr _].
  etrans; [exact Hr | done].
Defined.

End Echo.
